(** * WebDriverPool (src/appnew.py): a shallow embedding and its properties

    The pool of Selenium drivers of [appnew.py] is embedded as pure
    functions over an explicit world: the pool object's attributes
    together with the part of the outside world the pool talks to (the
    clock, the browser sessions, the chromedriver launcher).

    Conventions.
    - Clock readings ([time.time()]) are integers counting milliseconds;
      [max_driver_age] and the [timeout] argument stay in seconds, as in
      the source, and are scaled where they are compared with readings.
    - A Python exception leaves the mutations made before it in place, so
      every operation returns the world it leaves behind together with
      its outcome.
    - Each public method runs as one atomic action; interleavings are
      sequences of such actions. *)

From stdpp Require Import gmap list strings.

#[local] Set Warnings "-clear-no-such-hyp".

Open Scope Z_scope.

(** ** Drivers and exceptions *)

(** A [webdriver.Chrome] object.  [addr] is what CPython's [id(driver)]
    returns, the address of the object; [session] is the ordinal of the
    [webdriver.Chrome(...)] call that built the object, so that two
    objects built by different calls differ even when the allocator hands
    out the same address twice. *)
Record Driver := mkDriver { addr : Z; session : nat }.

#[global] Instance Driver_eq_dec : EqDecision Driver.
Proof. solve_decision. Defined.

(** The exceptions the outside world can raise into the pool, by the
    classes the pool distinguishes.  [WebDriverException] stands for the
    selenium base class and its subclasses other than the two named ones;
    [OtherException] for any exception outside that family (for instance
    urllib3's errors when the chromedriver process is gone). *)
Inductive fault :=
  | InvalidSessionIdException
  | NoSuchWindowException
  | WebDriverException
  | OtherException.

#[global] Instance fault_eq_dec : EqDecision fault.
Proof. solve_decision. Defined.

(** What a method of the pool can raise: the [TimeoutError] that
    [get_driver] raises itself, or a fault of the outside world that it
    lets through. *)
Inductive exn :=
  | TimeoutError
  | Fault (f : fault).

#[global] Instance exn_eq_dec : EqDecision exn.
Proof. solve_decision. Defined.

Inductive result (A : Type) :=
  | Ret (a : A)
  | Raise (e : exn).
Arguments Ret {A} a.
Arguments Raise {A} e.

(** ** The pool object *)

(** An entry of [self.driver_pool]: [{"driver": ..., "created_at": ...}]. *)
Record IdleInfo := mkIdle { idle_driver : Driver; idle_created_at : Z }.

(** A value of [self.active_drivers]:
    [{"driver": ..., "created_at": ..., "last_used": ...}]. *)
Record ActiveInfo := mkActive {
  driver : Driver;
  created_at : Z;
  last_used : Z
}.

#[global] Instance IdleInfo_eq_dec : EqDecision IdleInfo.
Proof. solve_decision. Defined.
#[global] Instance ActiveInfo_eq_dec : EqDecision ActiveInfo.
Proof. solve_decision. Defined.

(** The attributes of a [WebDriverPool] that the pool logic reads or
    writes.  [driver_pool] is the [Queue()], head first; [active_drivers]
    the dict keyed by [id(driver)]. *)
Record WebDriverPool := mkPool {
  driver_pool : list IdleInfo;
  active_drivers : gmap Z ActiveInfo;
  max_drivers : Z;
  max_driver_age : Z;
  pool_size : Z;
  running : bool
}.

(** ** The outside world *)

(** What [webdriver.Chrome(...)] does when it is called next: it builds
    an object at address [a], or raises. *)
Inductive launch :=
  | Launches (a : Z)
  | LaunchFails (f : fault).

(** A fault raised inside one pass of the maintenance worker, before the
    scan of the active drivers or before the consistency check. *)
Inductive sweep_fault :=
  | FaultBeforeScan
  | FaultBeforeCheck.

Record Env := mkEnv {
  now : Z;
  current_url : Driver → option fault;
  chrome : launch;
  launched : list Driver;
  quit_calls : list Driver;
  sweep_error : option sweep_fault
}.

Record World := mkWorld { pool : WebDriverPool; env : Env }.

(** *** Attribute updates *)

Definition set_driver_pool (q : list IdleInfo) (w : World) : World :=
  let p := pool w in
  mkWorld (mkPool q (active_drivers p) (max_drivers p) (max_driver_age p)
                  (pool_size p) (running p)) (env w).

Definition set_active_drivers (m : gmap Z ActiveInfo) (w : World) : World :=
  let p := pool w in
  mkWorld (mkPool (driver_pool p) m (max_drivers p) (max_driver_age p)
                  (pool_size p) (running p)) (env w).

Definition set_pool_size (n : Z) (w : World) : World :=
  let p := pool w in
  mkWorld (mkPool (driver_pool p) (active_drivers p) (max_drivers p)
                  (max_driver_age p) n (running p)) (env w).

Definition set_running (b : bool) (w : World) : World :=
  let p := pool w in
  mkWorld (mkPool (driver_pool p) (active_drivers p) (max_drivers p)
                  (max_driver_age p) (pool_size p) b) (env w).

Definition set_env (e : Env) (w : World) : World := mkWorld (pool w) e.

(** [time.sleep(ms / 1000)]. *)
Definition time_sleep (ms : Z) (w : World) : World :=
  let e := env w in
  set_env (mkEnv (now e + ms) (current_url e) (chrome e) (launched e)
                 (quit_calls e) (sweep_error e)) w.

(** [WebDriverPool.__init__]: an empty queue, an empty dict, a count of
    zero, the maintenance thread flagged as running. *)
Definition init (max_drivers max_driver_age : Z) : WebDriverPool :=
  mkPool [] ∅ max_drivers max_driver_age 0 true.

(** The world right after construction: nothing launched, nothing quit,
    every probe succeeding. *)
Definition fresh_env (t : Z) (c : launch) : Env :=
  mkEnv t (λ _, None) c [] [] None.

Definition fresh (max_drivers max_driver_age : Z) (t : Z) (c : launch) : World :=
  mkWorld (init max_drivers max_driver_age) (fresh_env t c).

(** ** Factory and validator *)

(** [_create_new_driver] returns a new driver object or raises.  The
    option list it assembles does not reach the pool's bookkeeping and is
    left out; [LaunchFails] stands for an exception out of
    [webdriver.Chrome(...)] or out of one of the three timeout setters
    that follow it, and [launched] lists the drivers the method has
    returned. *)
Definition _create_new_driver (w : World) : result Driver * World :=
  let e := env w in
  match chrome e with
  | LaunchFails x => (Raise (Fault x), w)
  | Launches a =>
      let d := mkDriver a (length (launched e)) in
      (Ret d, set_env (mkEnv (now e) (current_url e) (chrome e)
                             (launched e ++ [d]) (quit_calls e)
                             (sweep_error e)) w)
  end.

(** The classes listed in the [except] clause of [_is_driver_valid]. *)
Definition caught_by_validator (x : fault) : bool :=
  match x with
  | InvalidSessionIdException | NoSuchWindowException | WebDriverException => true
  | OtherException => false
  end.

(** [_is_driver_valid]: [None] is the falsy argument. *)
Definition _is_driver_valid (d : option Driver) (w : World) : result bool :=
  match d with
  | None => Ret false
  | Some d =>
      match current_url (env w) d with
      | None => Ret true
      | Some x => if caught_by_validator x then Ret false else Raise (Fault x)
      end
  end.

(** [_quit_driver]: [driver.quit()] is called on every truthy argument
    and whatever it raises is logged and dropped. *)
Definition _quit_driver (d : option Driver) (w : World) : World :=
  match d with
  | None => w
  | Some d =>
      let e := env w in
      set_env (mkEnv (now e) (current_url e) (chrome e) (launched e)
                     (quit_calls e ++ [d]) (sweep_error e)) w
  end.

(** ** get_driver *)

(** How one pass through the body of the [while] loop ends. *)
Inductive pass :=
  | Returned (d : Driver)
  | Continue
  | Sleep
  | Raised (e : exn).

(** The body of the loop of [get_driver]. *)
Definition get_driver_body (w : World) : pass * World :=
  match driver_pool (pool w) with
  | driver_info :: rest =>
      (* self.driver_pool.get(block=False) *)
      let w1 := set_driver_pool rest w in
      let d := idle_driver driver_info in
      match _is_driver_valid (Some d) w1 with
      | Ret true =>
          (Returned d,
           set_active_drivers
             (<[addr d := mkActive d (idle_created_at driver_info) (now (env w1))]>
                (active_drivers (pool w1))) w1)
      | Ret false =>
          let w2 := _quit_driver (Some d) w1 in
          (Continue, set_pool_size (pool_size (pool w2) - 1) w2)
      | Raise x => (Raised x, w1)
      end
  | [] =>
      (* except Empty *)
      if pool_size (pool w) <? max_drivers (pool w) then
        match _create_new_driver w with
        | (Ret d, w1) =>
            let w2 := set_pool_size (pool_size (pool w1) + 1) w1 in
            let t := now (env w2) in
            (Returned d,
             set_active_drivers
               (<[addr d := mkActive d t t]> (active_drivers (pool w2))) w2)
        | (Raise x, w1) => (Raised x, w1)
        end
      else (Sleep, w)
  end.

(** The loop of [get_driver], [fuel] bounding the number of passes;
    [None] only when the fuel runs out. *)
Fixpoint get_driver_loop (fuel : nat) (start_time timeout : Z) (w : World)
  : option (result Driver * World) :=
  match fuel with
  | O => None
  | S fuel' =>
      if now (env w) - start_time <? timeout * 1000 then
        match get_driver_body w with
        | (Returned d, w') => Some (Ret d, w')
        | (Raised x, w') => Some (Raise x, w')
        | (Continue, w') => get_driver_loop fuel' start_time timeout w'
        | (Sleep, w') => get_driver_loop fuel' start_time timeout (time_sleep 500 w')
        end
      else Some (Raise TimeoutError, w)
  end.

(** Passes that [get_driver] can need: one per idle entry, one per
    millisecond of the window (each sleep moves the clock by 500), and
    the pass that finds the window closed. *)
Definition get_driver_fuel (timeout : Z) (w : World) : nat :=
  (length (driver_pool (pool w)) + Z.to_nat (timeout * 1000) + 1)%nat.

Definition get_driver (timeout : Z) (w : World) : option (result Driver * World) :=
  get_driver_loop (get_driver_fuel timeout w) (now (env w)) timeout w.

(** ** release_driver *)

(** The branch "too old or invalid" of [release_driver]. *)
Definition retire (d : Driver) (w : World) : World :=
  let w1 := _quit_driver (Some d) w in
  set_pool_size (pool_size (pool w1) - 1) w1.

(** [release_driver]; [None] is the falsy argument. *)
Definition release_driver (d : option Driver) (w : World) : result unit * World :=
  match d with
  | None => (Ret tt, w)
  | Some d =>
      let driver_id := addr d in
      match active_drivers (pool w) !! driver_id with
      | Some driver_info =>
          let w1 := set_active_drivers (delete driver_id (active_drivers (pool w))) w in
          let age := now (env w1) - created_at driver_info in
          if age >? max_driver_age (pool w1) * 1000 then (Ret tt, retire d w1)
          else
            match _is_driver_valid (Some d) w1 with
            | Raise x => (Raise x, w1)
            | Ret false => (Ret tt, retire d w1)
            | Ret true =>
                (Ret tt,
                 set_driver_pool
                   (driver_pool (pool w1) ++ [mkIdle d (created_at driver_info)]) w1)
            end
      | None => (Ret tt, _quit_driver (Some d) w)
      end
  end.

(** ** The maintenance worker *)

(** The test of the scan: [current_time - info["last_used"] > 300]. *)
Definition is_stuck (current_time : Z) (info : ActiveInfo) : bool :=
  current_time - last_used info >? 300000.

(** The list [stuck_drivers] built by the scan over
    [list(self.active_drivers.items())].  A Python dict lists its items
    in insertion order, [map_to_list] in an order of its own; the order
    only shows in the order of the [quit] calls of one pass. *)
Definition stuck_drivers (current_time : Z) (m : gmap Z ActiveInfo)
  : list (Z * Driver) :=
  (λ kv, (kv.1, driver kv.2)) <$>
    filter (λ kv, is_stuck current_time kv.2 = true) (map_to_list m).

(** One turn of the clean-up loop: quit, [pop(driver_id, None)],
    decrement. *)
Definition reap_one (w : World) (kd : Z * Driver) : World :=
  let w1 := _quit_driver (Some kd.2) w in
  let w2 := set_active_drivers (delete kd.1 (active_drivers (pool w1))) w1 in
  set_pool_size (pool_size (pool w2) - 1) w2.

(** The first [with self.lock] block of a pass. *)
Definition reap_stuck (w : World) : World :=
  foldl reap_one w (stuck_drivers (now (env w)) (active_drivers (pool w))).

(** The second [with self.lock] block: the consistency check. *)
Definition check_consistency (w : World) : World :=
  let expected_size :=
    Z.of_nat (size (active_drivers (pool w))) +
    Z.of_nat (length (driver_pool (pool w))) in
  if decide (expected_size ≠ pool_size (pool w))
  then set_pool_size expected_size w
  else w.

(** The body of the [try] of [_maintenance_worker]; a fault announced by
    the environment aborts it where it strikes. *)
Definition maintenance_pass (w : World) : result unit * World :=
  let w1 := time_sleep 30000 w in
  match sweep_error (env w1) with
  | Some FaultBeforeScan => (Raise (Fault OtherException), w1)
  | _ =>
      let w2 := reap_stuck w1 in
      match sweep_error (env w2) with
      | Some FaultBeforeCheck => (Raise (Fault OtherException), w2)
      | _ => (Ret tt, check_consistency w2)
      end
  end.

(** One turn of the [while self.running] loop: the [try] body, with
    [except Exception] logging whatever it raised. *)
Definition maintenance_turn (w : World) : World :=
  match maintenance_pass w with
  | (Ret _, w') => w'
  | (Raise _, w') => w'
  end.

(** [_maintenance_worker], observed for [turns] turns of its loop. *)
Fixpoint _maintenance_worker (turns : nat) (w : World) : World :=
  match turns with
  | O => w
  | S n =>
      if running (pool w) then _maintenance_worker n (maintenance_turn w)
      else w
  end.

(** ** shutdown *)

(** The loop [while not self.driver_pool.empty()] of [shutdown]. *)
Fixpoint drain (q : list IdleInfo) (w : World) : World :=
  match q with
  | [] => w
  | driver_info :: rest =>
      drain rest (_quit_driver (Some (idle_driver driver_info))
                               (set_driver_pool rest w))
  end.

Definition quit_active (w : World) (info : ActiveInfo) : World :=
  _quit_driver (Some (driver info)) w.

Definition shutdown (w : World) : World :=
  let w1 := set_running false w in
  let w2 := drain (driver_pool (pool w1)) w1 in
  let w3 := foldl quit_active w2 (map_to_list (active_drivers (pool w2))).*2 in
  set_pool_size 0 (set_active_drivers ∅ w3).

(** ** Interleavings *)

(** What can happen to a pool: calls of its methods by any thread, turns
    of its maintenance thread, and moves of the outside world. *)
Inductive action :=
  | Acquire (timeout : Z)
  | Release (d : option Driver)
  | Maintain
  | Shutdown
  | Elapse (dt : Z)
  | Session (d : Driver) (o : option fault)
  | Chromedriver (c : launch)
  | SweepFault (f : option sweep_fault).

Definition set_current_url (d : Driver) (o : option fault) (w : World) : World :=
  let e := env w in
  set_env (mkEnv (now e)
                 (λ d', if decide (d' = d) then o else current_url e d')
                 (chrome e) (launched e) (quit_calls e) (sweep_error e)) w.

Definition set_chrome (c : launch) (w : World) : World :=
  let e := env w in
  set_env (mkEnv (now e) (current_url e) c (launched e) (quit_calls e)
                 (sweep_error e)) w.

Definition set_sweep_error (f : option sweep_fault) (w : World) : World :=
  let e := env w in
  set_env (mkEnv (now e) (current_url e) (chrome e) (launched e)
                 (quit_calls e) f) w.

(** The world after an action; exceptions raised to the caller leave the
    world they were raised in. *)
Definition step (a : action) (w : World) : option World :=
  match a with
  | Acquire timeout => snd <$> get_driver timeout w
  | Release d => Some (release_driver d w).2
  | Maintain => Some (_maintenance_worker 1 w)
  | Shutdown => Some (shutdown w)
  | Elapse dt => Some (time_sleep dt w)
  | Session d o => Some (set_current_url d o w)
  | Chromedriver c => Some (set_chrome c w)
  | SweepFault f => Some (set_sweep_error f w)
  end.

Fixpoint run (tr : list action) (w : World) : option World :=
  match tr with
  | [] => Some w
  | a :: tr' =>
      match step a w with
      | Some w' => run tr' w'
      | None => None
      end
  end.

(** ** Vocabulary of the statements *)

(** The test of the [while] of [get_driver]. *)
Definition window_open (start_time timeout : Z) (w : World) : Prop :=
  now (env w) - start_time < timeout * 1000.

#[global] Instance window_open_dec s t w : Decision (window_open s t w).
Proof. unfold window_open. apply _. Defined.

(** An idle entry that the validator turns down. *)
Definition idle_invalid (w : World) (i : IdleInfo) : Prop :=
  _is_driver_valid (Some (idle_driver i)) w = Ret false.

(** The world after [get_driver] has popped, quit and discounted the idle
    entries [q], with [rest] left in the queue. *)
Definition discard (q rest : list IdleInfo) (w : World) : World :=
  mkWorld
    (mkPool rest (active_drivers (pool w)) (max_drivers (pool w))
            (max_driver_age (pool w))
            (pool_size (pool w) - Z.of_nat (length q)) (running (pool w)))
    (mkEnv (now (env w)) (current_url (env w)) (chrome (env w))
           (launched (env w)) (quit_calls (env w) ++ (idle_driver <$> q))
           (sweep_error (env w))).

(** The passes of the loop, by their effect. *)
Inductive body_case (w : World) : pass → World → Prop :=
  | body_reuse i rest :
      driver_pool (pool w) = i :: rest →
      _is_driver_valid (Some (idle_driver i)) w = Ret true →
      body_case w (Returned (idle_driver i))
        (set_active_drivers
           (<[addr (idle_driver i) :=
                mkActive (idle_driver i) (idle_created_at i) (now (env w))]>
              (active_drivers (pool w)))
           (set_driver_pool rest w))
  | body_discard i rest :
      driver_pool (pool w) = i :: rest →
      idle_invalid w i →
      body_case w Continue (discard [i] rest w)
  | body_probe_fault i rest x :
      driver_pool (pool w) = i :: rest →
      _is_driver_valid (Some (idle_driver i)) w = Raise x →
      body_case w (Raised x) (set_driver_pool rest w)
  | body_wait :
      driver_pool (pool w) = [] →
      max_drivers (pool w) ≤ pool_size (pool w) →
      body_case w Sleep w
  | body_create a :
      driver_pool (pool w) = [] →
      pool_size (pool w) < max_drivers (pool w) →
      chrome (env w) = Launches a →
      let d := mkDriver a (length (launched (env w))) in
      body_case w (Returned d)
        (mkWorld
           (mkPool [] (<[a := mkActive d (now (env w)) (now (env w))]>
                         (active_drivers (pool w)))
                   (max_drivers (pool w)) (max_driver_age (pool w))
                   (pool_size (pool w) + 1) (running (pool w)))
           (mkEnv (now (env w)) (current_url (env w)) (chrome (env w))
                  (launched (env w) ++ [d]) (quit_calls (env w))
                  (sweep_error (env w))))
  | body_launch_fails x :
      driver_pool (pool w) = [] →
      pool_size (pool w) < max_drivers (pool w) →
      chrome (env w) = LaunchFails x →
      body_case w (Raised (Fault x)) w.

(** The ways out of [release_driver] for a truthy driver, by their
    effect. *)
Inductive release_case (d : Driver) (w : World) : result unit → World → Prop :=
  | release_retire info :
      active_drivers (pool w) !! addr d = Some info →
      now (env w) - created_at info > max_driver_age (pool w) * 1000 ∨
      _is_driver_valid (Some d) w = Ret false →
      release_case d w (Ret tt)
        (retire d (set_active_drivers (delete (addr d) (active_drivers (pool w))) w))
  | release_requeue info :
      active_drivers (pool w) !! addr d = Some info →
      now (env w) - created_at info ≤ max_driver_age (pool w) * 1000 →
      _is_driver_valid (Some d) w = Ret true →
      release_case d w (Ret tt)
        (set_driver_pool (driver_pool (pool w) ++ [mkIdle d (created_at info)])
           (set_active_drivers (delete (addr d) (active_drivers (pool w))) w))
  | release_probe_fault info x :
      active_drivers (pool w) !! addr d = Some info →
      now (env w) - created_at info ≤ max_driver_age (pool w) * 1000 →
      _is_driver_valid (Some d) w = Raise x →
      release_case d w (Raise x)
        (set_active_drivers (delete (addr d) (active_drivers (pool w))) w)
  | release_stray :
      active_drivers (pool w) !! addr d = None →
      release_case d w (Ret tt) (_quit_driver (Some d) w).

(** *** Reachable worlds *)

(** The worlds an interleaving leads to when each of its actions meets
    the side condition [ok] in the world it is taken in. *)
Inductive reachable (ok : World → action → Prop) (w0 : World) : World → Prop :=
  | reachable_start : reachable ok w0 w0
  | reachable_step w a w' :
      reachable ok w0 w → ok w a → step a w = Some w' → reachable ok w0 w'.

(** The ids of the drivers waiting in the queue. *)
Definition idle_addrs (w : World) : list Z :=
  (λ i, addr (idle_driver i)) <$> driver_pool (pool w).

(** CPython hands a new object an address that no live object has: when
    [get_driver] is called, the address the launcher is about to use is
    not the id of a driver the pool holds. *)
Definition feasible (w : World) (a : action) : Prop :=
  match a with
  | Acquire _ =>
      match chrome (env w) with
      | Launches x => (x ∉ idle_addrs w) ∧ active_drivers (pool w) !! x = None
      | LaunchFails _ => True
      end
  | _ => True
  end.

#[global] Instance feasible_dec w a : Decision (feasible w a).
Proof. destruct a; cbn; try apply _. destruct (chrome (env w)); apply _. Defined.

(** Sessions fail only in the ways the validator expects. *)
Definition expected_faults_only (a : action) : Prop :=
  match a with
  | Session _ (Some x) => caught_by_validator x = true
  | _ => True
  end.

#[global] Instance expected_faults_only_dec a : Decision (expected_faults_only a).
Proof. destruct a as [| | | | |d [x|]| |]; cbn; apply _. Defined.

Definition lawful (w : World) (a : action) : Prop :=
  feasible w a ∧ expected_faults_only a.

#[global] Instance lawful_dec w a : Decision (lawful w a).
Proof. unfold lawful. apply _. Defined.

(** Callers hand back only what they hold: a released driver is the
    object leased under its id. *)
Definition held (w : World) (a : action) : Prop :=
  match a with
  | Release (Some d) => driver <$> active_drivers (pool w) !! addr d = Some d
  | _ => True
  end.

#[global] Instance held_dec w a : Decision (held w a).
Proof. destruct a as [|[d|]| | | | | |]; cbn; apply _. Defined.

Definition disciplined (w : World) (a : action) : Prop :=
  lawful w a ∧ held w a.

#[global] Instance disciplined_dec w a : Decision (disciplined w a).
Proof. unfold disciplined. apply _. Defined.

(** An interleaving, given as the list of its actions, each of which
    meets [ok] where it is taken. *)
Fixpoint admissible (ok : World → action → Prop) (tr : list action) (w : World)
  : Prop :=
  match tr with
  | [] => True
  | a :: tr' =>
      ok w a ∧
      match step a w with
      | Some w' => admissible ok tr' w'
      | None => False
      end
  end.

#[global] Instance admissible_dec ok `{∀ w a, Decision (ok w a)} tr w :
  Decision (admissible ok tr w).
Proof.
  revert w. induction tr as [|a tr IH]; intros w; cbn; [apply _|].
  destruct (step a w); apply _.
Defined.

(** *** Invariants *)

(** Keys are ids, and no id is tracked twice. *)
Record structure_inv (w : World) : Prop := {
  keyed_by_id : ∀ k info,
    active_drivers (pool w) !! k = Some info → addr (driver info) = k;
  idle_distinct : NoDup (idle_addrs w);
  idle_not_active : ∀ i,
    i ∈ driver_pool (pool w) →
    active_drivers (pool w) !! addr (idle_driver i) = None
}.


(** The drivers an active map holds. *)
Definition drivers_of (m : gmap Z ActiveInfo) : list Driver :=
  driver <$> (map_to_list m).*2.

Definition leased (w : World) : list Driver :=
  drivers_of (active_drivers (pool w)).

(** Every driver launched is idle, leased or quit, and in one way only. *)
Record ledger_inv (w : World) : Prop := {
  ledger_balanced :
    launched (env w) ≡ₚ
    ((idle_driver <$> driver_pool (pool w)) ++ leased w ++ quit_calls (env w));
  launched_sessions : ∀ d,
    d ∈ launched (env w) → (session d < length (launched (env w)))%nat;
  launched_distinct : NoDup (launched (env w));
  ledger_probes : ∀ d x,
    current_url (env w) d = Some x → caught_by_validator x = true
}.

(** ** The arguments of the browser *)

(** A value of the [browser_options] dict, the way [_create_new_driver]
    tells values apart: the object [True], the object [None], or anything
    else, given by the text an f-string makes of it ([new] for ["new"],
    [False] for [False]). *)
Inductive option_value :=
  | IsTrue
  | IsNone
  | Other (text : string).

#[global] Instance option_value_eq_dec : EqDecision option_value.
Proof. solve_decision. Defined.

(** [chrome_options.add_argument(...)]: the arguments of an [Options]
    object are the calls of [add_argument] in their order. *)
Definition add_argument (argument : string) (chrome_options : list string)
  : list string :=
  chrome_options ++ [argument].

(** One turn of the loop over [self.browser_options.items()]. *)
Definition add_user_option (chrome_options : list string)
  (item : string * option_value) : list string :=
  match item.2 with
  | IsTrue => add_argument ("--" +:+ item.1) chrome_options
  | IsNone => chrome_options
  | Other value => add_argument ("--" +:+ item.1 +:+ "=" +:+ value) chrome_options
  end.

(** The arguments [_create_new_driver] gives the browser;
    [browser_options] is the dict in insertion order. *)
Definition chrome_arguments (browser_options : list (string * option_value))
  : list string :=
  let chrome_options := [] in
  let chrome_options := add_argument "--no-sandbox" chrome_options in
  let chrome_options := add_argument "--disable-dev-shm-usage" chrome_options in
  let chrome_options := add_argument "--disable-gpu" chrome_options in
  let chrome_options := add_argument "--window-size=1920,1080" chrome_options in
  let chrome_options := foldl add_user_option chrome_options browser_options in
  if decide ("headless"%string ∈ browser_options.*1) then chrome_options
  else add_argument "--headless=new" chrome_options.

(** The dict of [initialize_driver_pool]. *)
Definition initialize_driver_pool_options : list (string * option_value) :=
  [("disable-infobars"%string, IsTrue);
   ("disable-extensions"%string, IsTrue);
   ("disable-popup-blocking"%string, IsTrue);
   ("incognito"%string, IsTrue);
   ("headless"%string, Other "new")].

(** The argument an option stands for, if any. *)
Definition option_argument (item : string * option_value) : list string :=
  add_user_option [] item.

(** ** The scrapers *)

(** *** Strings *)

(** [s] without its prefix [p], if it has that prefix. *)
Fixpoint strip_prefix (p s : string) : option string :=
  match p with
  | EmptyString => Some s
  | String a p' =>
      match s with
      | String b s' => if decide (a = b) then strip_prefix p' s' else None
      | EmptyString => None
      end
  end.

(** The leftmost occurrence of [sep] in [s]: what is before it and what is
    after it. *)
Fixpoint str_find (sep s : string) : option (string * string) :=
  match strip_prefix sep s with
  | Some rest => Some (EmptyString, rest)
  | None =>
      match s with
      | EmptyString => None
      | String c s' =>
          match str_find sep s' with
          | Some (before, after) => Some (String c before, after)
          | None => None
          end
      end
  end.

Fixpoint split_fuel (fuel : nat) (sep s : string) : list string :=
  match fuel with
  | O => [s]
  | S n =>
      match str_find sep s with
      | None => [s]
      | Some (before, after) => before :: split_fuel n sep after
      end
  end.

(** Python's [s.split(sep)] for a separator that is not empty: [s] is cut
    at the occurrences of [sep], found from left to right.  A string is
    the sequence of its bytes in UTF-8, which the cuts at [", "] treat as
    they treat code points. *)
Definition split (sep s : string) : list string :=
  split_fuel (String.length s) sep s.

(** Python's [sep.join(l)]. *)
Fixpoint join (sep : string) (l : list string) : string :=
  match l with
  | [] => EmptyString
  | [x] => x
  | x :: rest => x +:+ sep +:+ join sep rest
  end.

(** *** Listings *)

(** An entry of the list a scraper returns, a dict with the keys [title],
    [price], [link], [image] and [source]; [get_attribute] answers [None]
    for an attribute that is not there. *)
Record Item := mkItem {
  title : string;
  price : string;
  link : option string;
  image : option string;
  source : string
}.

(** What the look-ups on one product card yield: the values read, or
    [Missing] when one of the look-ups raises. *)
Inductive dom (A : Type) :=
  | Found (a : A)
  | Missing.
Arguments Found {A} a.
Arguments Missing {A}.

(** A product card of the Vinted grid: the [title] and [href] attributes
    of its overlay link and the [src] of its image. *)
Record VintedCard := mkVintedCard {
  overlay_link : dom (option string * option string);
  card_image : dom (option string)
}.

(** The lines of [scrape_vinted] that take title and price out of the
    [title] attribute. *)
Definition vinted_title_price (title_full : string) : string * string :=
  let title_parts := split ", " title_full in
  (if (0 <? length title_parts)%nat
   then default EmptyString (title_parts !! 0%nat)
   else "No title"%string,
   if (2 <? length title_parts)%nat
   then default EmptyString (title_parts !! (length title_parts - 2)%nat)
   else "No price"%string).

(** The body of the loop of [scrape_vinted] over the product cards:
    [None] when an exception sends it to its [except] clause. *)
Definition vinted_item (product : VintedCard) : option Item :=
  match overlay_link product with
  | Missing => None
  | Found (title_full, href) =>
      match card_image product with
      | Missing => None
      | Found src =>
          match title_full with
          | None => None   (* None.split raises AttributeError *)
          | Some title_full =>
              let tp := vinted_title_price title_full in
              Some (mkItem tp.1 tp.2 href src "vinted")
          end
      end
  end.

(** What a visit of a site lets the scraper see: [driver.get], the wait
    for the grid and [find_elements] may each raise, [find_elements]
    yields the product cards, and the scraper's own [driver.quit()] may
    raise. *)
Record Visit (Card : Type) := mkVisit {
  page_load : option fault;
  grid_wait : option fault;
  find_elements : option fault;
  product_cards : list Card;
  quit_raises : option fault
}.
Arguments mkVisit {Card}.
Arguments page_load {Card}.
Arguments grid_wait {Card}.
Arguments find_elements {Card}.
Arguments product_cards {Card}.
Arguments quit_raises {Card}.

(** [driver.quit()] called by a scraper: the call is made, and what it
    raises is not caught. *)
Definition driver_quit {Card} (d : Driver) (visit : Visit Card) (w : World)
  : result unit * World :=
  (match quit_raises visit with
   | Some f => Raise (Fault f)
   | None => Ret tt
   end,
   _quit_driver (Some d) w).

(** [WebDriverPool()], with the defaults of [__init__]. *)
Definition default_pool : WebDriverPool := init 5 1800.

(** [scrape_vinted]: a pool of its own, a driver from it, the [try] over
    the page and the [finally] that quits the driver. *)
Definition scrape_vinted (visit : Visit VintedCard) (e : Env)
  : option (result (list Item) * World) :=
  let w := mkWorld default_pool e in
  match get_driver 10 w with
  | None => None
  | Some (Raise x, w1) => Some (Raise x, w1)
  | Some (Ret d, w1) =>
      let tried :=
        match page_load visit with
        | Some f => Raise (Fault f)
        | None =>
            match grid_wait visit with
            | Some f => Raise (Fault f)
            | None =>
                match find_elements visit with
                | Some f => Raise (Fault f)
                | None => Ret (omap vinted_item (product_cards visit))
                end
            end
        end in
      match driver_quit d visit w1 with
      | (Raise x, w2) => Some (Raise x, w2)
      | (Ret _, w2) => Some (tried, w2)
      end
  end.

(** A product of the eBay listing: the texts of its title and price and
    the [src] and [href] attributes of its image and link. *)
Definition EbayCard : Type := dom (string * string * option string * option string).

Definition ebay_item (product : EbayCard) : option Item :=
  match product with
  | Missing => None
  | Found (title, price, image_url, product_url) =>
      Some (mkItem title price product_url image_url "ebay")
  end.

(** Python's [l[-n:]] for a positive [n]. *)
Definition last_n {A} (n : nat) (l : list A) : list A :=
  drop (length l - n) l.

(** [scrape_ebay]: no [finally] here; the driver is quit where the
    listings do not show up in time and at the end. *)
Definition scrape_ebay (visit : Visit EbayCard) (e : Env)
  : option (result (list Item) * World) :=
  let w := mkWorld default_pool e in
  match get_driver 10 w with
  | None => None
  | Some (Raise x, w1) => Some (Raise x, w1)
  | Some (Ret d, w1) =>
      match page_load visit with
      | Some f => Some (Raise (Fault f), w1)
      | None =>
          match grid_wait visit with
          | Some _ =>
              match driver_quit d visit w1 with
              | (Raise x, w2) => Some (Raise x, w2)
              | (Ret _, w2) => Some (Ret [], w2)
              end
          | None =>
              match find_elements visit with
              | Some f => Some (Raise (Fault f), w1)
              | None =>
                  let product_elements := product_cards visit in
                  let products := omap ebay_item (take 12 product_elements) in
                  match driver_quit d visit w1 with
                  | (Raise x, w2) => Some (Raise x, w2)
                  | (Ret _, w2) => Some (Ret (last_n 10 products), w2)
                  end
              end
          end
      end
  end.

(** ** Further vocabulary *)


(** No side condition on the actions of an interleaving. *)
Definition any_action (w : World) (a : action) : Prop := True.

#[global] Instance any_action_dec w a : Decision (any_action w a).
Proof. unfold any_action. apply _. Defined.

(** ** Worlds for the concrete runs *)

(** A pool of capacity one, built at time 0, with the launcher about to
    put its next driver at address 7; [d0] and [d1] are the first and the
    second driver launched there. *)
Definition w0 : World := fresh 1 1800 0 (Launches 7).
Definition d0 : Driver := mkDriver 7 0.
Definition d1 : Driver := mkDriver 7 1.

(** The world after the first [get_driver] on [w0]: [d0] leased. *)
Definition leased_world : World :=
  mkWorld (mkPool [] {[7 := mkActive d0 0 0]} 1 1800 1 true)
          (mkEnv 0 (λ _, None) (Launches 7) [d0] [] None).

(** Pages for the scrapers: thirteen eBay products that can all be read,
    a Vinted grid of two cards of which the second has no overlay link,
    and a site whose page does not load. *)
Definition ebay_listing (t : string) : EbayCard :=
  Found (t, "1.00"%string, None, None).

Definition ebay_page : Visit EbayCard :=
  mkVisit None None None
    (ebay_listing <$> ["a"; "b"; "c"; "d"; "e"; "f"; "g"; "h"; "i"; "j";
                        "k"; "l"; "m"]%string)
    None.

Definition vinted_page : Visit VintedCard :=
  mkVisit None None None
    [mkVintedCard (Found (Some "Shirt, brand: Acme, 5.00, size M"%string, None))
                  (Found None);
     mkVintedCard Missing (Found None)]
    None.

Definition site_down {Card} : Visit Card :=
  mkVisit (Some WebDriverException) None None [] None.

(** * Properties *)

(** Unfolds the attribute updates down to the records they build. *)
Ltac simpl_world :=
  unfold retire, set_driver_pool, set_active_drivers, set_pool_size,
    set_running, set_env, time_sleep, _quit_driver, set_current_url,
    set_chrome, set_sweep_error in *;
  cbn in *.

(** ** Projections through the attribute updates *)

Lemma validity_only_reads_sessions d w w' :
  current_url (env w') = current_url (env w) →
  _is_driver_valid d w' = _is_driver_valid d w.
Proof. intros E. destruct d as [d|]; [|done]. simpl. by rewrite E. Qed.

(** ** release_driver *)

Section release.
Variables (d : Driver) (w : World).

(** The three ways a tracked driver leaves [release_driver]. *)
Lemma release_tracked_old info :
  active_drivers (pool w) !! addr d = Some info →
  now (env w) - created_at info > max_driver_age (pool w) * 1000 →
  release_driver (Some d) w =
    (Ret tt,
     retire d (set_active_drivers (delete (addr d) (active_drivers (pool w))) w)).
Proof.
  intros Hin Hage. unfold release_driver. rewrite Hin. cbn.
  destruct (Z.gtb_spec (now (env w) - created_at info)
              (max_driver_age (pool w) * 1000)); [done|].
  lia.
Qed.

Lemma release_tracked_young info :
  active_drivers (pool w) !! addr d = Some info →
  now (env w) - created_at info ≤ max_driver_age (pool w) * 1000 →
  release_driver (Some d) w =
    let w1 := set_active_drivers (delete (addr d) (active_drivers (pool w))) w in
    match _is_driver_valid (Some d) w with
    | Raise x => (Raise x, w1)
    | Ret false => (Ret tt, retire d w1)
    | Ret true =>
        (Ret tt,
         set_driver_pool (driver_pool (pool w) ++ [mkIdle d (created_at info)]) w1)
    end.
Proof.
  intros Hin Hage. unfold release_driver. rewrite Hin. cbn.
  destruct (Z.gtb_spec (now (env w) - created_at info)
              (max_driver_age (pool w) * 1000)) as [Hlt|_].
  - lia.
  - by destruct (current_url (env w) d) as [x|]; [destruct (caught_by_validator x)|].
Qed.

Lemma release_untracked :
  active_drivers (pool w) !! addr d = None →
  release_driver (Some d) w = (Ret tt, _quit_driver (Some d) w).
Proof. intros Hout. unfold release_driver. by rewrite Hout. Qed.
End release.

(** A reused idle driver enters the active map with the creation time it
    was queued with. *)
Lemma body_idle_valid_eq w i rest :
  driver_pool (pool w) = i :: rest →
  _is_driver_valid (Some (idle_driver i)) w = Ret true →
  get_driver_body w =
    (Returned (idle_driver i),
     set_active_drivers
       (<[addr (idle_driver i) :=
            mkActive (idle_driver i) (idle_created_at i) (now (env w))]>
          (active_drivers (pool w)))
       (set_driver_pool rest w)).
Proof.
  intros Hq Hv.
  assert (Hv' : _is_driver_valid (Some (idle_driver i)) (set_driver_pool rest w)
                = Ret true)
    by (rewrite <- Hv; by apply validity_only_reads_sessions).
  unfold get_driver_body. rewrite Hq. cbv zeta. by rewrite Hv'.
Qed.


(** C9.  Releasing a truthy driver whose id is not in the active map
    quits it and returns normally; the queue, the active map and the
    count are as before. *)
Theorem release_unknown_driver (d : Driver) (w : World) :
  active_drivers (pool w) !! addr d = None →
  (release_driver (Some d) w).1 = Ret tt ∧
  quit_calls (env (release_driver (Some d) w).2) = quit_calls (env w) ++ [d] ∧
  pool (release_driver (Some d) w).2 = pool w.
Proof. intros Hout. by rewrite release_untracked. Qed.

(** C10.  Releasing a falsy driver returns at once: no [quit], and the
    world, count, queue and active map included, is the one it was
    called in. *)
Theorem release_falsy_driver (w : World) :
  release_driver None w = (Ret tt, w) ∧
  quit_calls (env (release_driver None w).2) = quit_calls (env w) ∧
  pool_size (pool (release_driver None w).2) = pool_size (pool w) ∧
  driver_pool (pool (release_driver None w).2) = driver_pool (pool w) ∧
  active_drivers (pool (release_driver None w).2) = active_drivers (pool w).
Proof. done. Qed.

(** ** get_driver: the loop body, case by case *)

Section body.
Variable w : World.

Lemma body_idle_invalid i rest :
  driver_pool (pool w) = i :: rest →
  _is_driver_valid (Some (idle_driver i)) w = Ret false →
  get_driver_body w =
    (Continue,
     set_pool_size (pool_size (pool w) - 1)
       (_quit_driver (Some (idle_driver i)) (set_driver_pool rest w))).
Proof.
  intros Hq Hv.
  assert (Hv' : _is_driver_valid (Some (idle_driver i)) (set_driver_pool rest w)
                = Ret false)
    by (rewrite <- Hv; by apply validity_only_reads_sessions).
  unfold get_driver_body. rewrite Hq. cbv zeta. by rewrite Hv'.
Qed.

Lemma body_idle_fault i rest x :
  driver_pool (pool w) = i :: rest →
  _is_driver_valid (Some (idle_driver i)) w = Raise x →
  get_driver_body w = (Raised x, set_driver_pool rest w).
Proof.
  intros Hq Hv.
  assert (Hv' : _is_driver_valid (Some (idle_driver i)) (set_driver_pool rest w)
                = Raise x)
    by (rewrite <- Hv; by apply validity_only_reads_sessions).
  unfold get_driver_body. rewrite Hq. cbv zeta. by rewrite Hv'.
Qed.

Lemma body_empty_full :
  driver_pool (pool w) = [] →
  max_drivers (pool w) ≤ pool_size (pool w) →
  get_driver_body w = (Sleep, w).
Proof.
  intros Hq Hfull. unfold get_driver_body. rewrite Hq.
  by destruct (Z.ltb_spec (pool_size (pool w)) (max_drivers (pool w))); [lia|].
Qed.

Lemma body_empty_launch_fails x :
  driver_pool (pool w) = [] →
  pool_size (pool w) < max_drivers (pool w) →
  chrome (env w) = LaunchFails x →
  get_driver_body w = (Raised (Fault x), w).
Proof.
  intros Hq Hroom Hc. unfold get_driver_body, _create_new_driver.
  rewrite Hq, Hc.
  by destruct (Z.ltb_spec (pool_size (pool w)) (max_drivers (pool w))); [|lia].
Qed.

Lemma body_empty_launches a :
  driver_pool (pool w) = [] →
  pool_size (pool w) < max_drivers (pool w) →
  chrome (env w) = Launches a →
  let d := mkDriver a (length (launched (env w))) in
  get_driver_body w =
    (Returned d,
     mkWorld
       (mkPool [] (<[a := mkActive d (now (env w)) (now (env w))]>
                     (active_drivers (pool w)))
               (max_drivers (pool w)) (max_driver_age (pool w))
               (pool_size (pool w) + 1) (running (pool w)))
       (mkEnv (now (env w)) (current_url (env w)) (chrome (env w))
              (launched (env w) ++ [d]) (quit_calls (env w))
              (sweep_error (env w)))).
Proof.
  intros Hq Hroom Hc d. unfold get_driver_body, _create_new_driver.
  rewrite Hq, Hc.
  destruct (Z.ltb_spec (pool_size (pool w)) (max_drivers (pool w))); [|lia].
  unfold set_active_drivers, set_pool_size, set_env. cbn. by rewrite Hq.
Qed.
End body.

(** ** get_driver: the loop *)

Lemma loop_window_closed fuel s t w :
  ¬ window_open s t w →
  get_driver_loop (S fuel) s t w = Some (Raise TimeoutError, w).
Proof.
  unfold window_open. intros Hc. cbn.
  by destruct (Z.ltb_spec (now (env w) - s) (t * 1000)); [lia|].
Qed.

Lemma loop_window_open fuel s t w :
  window_open s t w →
  get_driver_loop (S fuel) s t w =
    match get_driver_body w with
    | (Returned d, w') => Some (Ret d, w')
    | (Raised x, w') => Some (Raise x, w')
    | (Continue, w') => get_driver_loop fuel s t w'
    | (Sleep, w') => get_driver_loop fuel s t (time_sleep 500 w')
    end.
Proof.
  unfold window_open. intros Ho. cbn [get_driver_loop].
  by destruct (Z.ltb_spec (now (env w) - s) (t * 1000)); [|lia].
Qed.

(** Totality: with one pass per idle entry, one per millisecond left in
    the window and one more, the loop ends with a driver or an
    exception. *)
Lemma get_driver_loop_total fuel s t w :
  (length (driver_pool (pool w)) + Z.to_nat (s + t * 1000 - now (env w)) + 1
   ≤ fuel)%nat →
  is_Some (get_driver_loop fuel s t w).
Proof.
  revert w. induction fuel as [|fuel IH]; intros w Hfuel; [lia|].
  destruct (decide (window_open s t w)) as [Ho|Hc].
  2: { rewrite loop_window_closed by done. eauto. }
  rewrite loop_window_open by done. unfold window_open in Ho.
  unfold get_driver_body.
  destruct (driver_pool (pool w)) as [|i rest] eqn:Hq.
  - destruct (Z.ltb_spec (pool_size (pool w)) (max_drivers (pool w))).
    + unfold _create_new_driver. destruct (chrome (env w)); eauto.
    + apply IH. cbn. rewrite Hq. cbn in *. lia.
  - cbv zeta.
    destruct (_is_driver_valid (Some (idle_driver i)) (set_driver_pool rest w))
      as [[|]|x]; eauto.
    apply IH. cbn in *. lia.
Qed.

Lemma get_driver_total timeout w : is_Some (get_driver timeout w).
Proof.
  apply get_driver_loop_total. unfold get_driver_fuel.
  replace (now (env w) + timeout * 1000 - now (env w)) with (timeout * 1000) by lia.
  lia.
Qed.

Section loop.
Variables (s t : Z).

Lemma idle_invalid_transfer w w' q :
  current_url (env w') = current_url (env w) →
  Forall (idle_invalid w) q ↔ Forall (idle_invalid w') q.
Proof.
  intros E. apply Forall_proper; [|done]. intros i. unfold idle_invalid.
  by rewrite (validity_only_reads_sessions _ w w').
Qed.

(** Invalid entries at the head of the queue are discarded one pass
    each, without a sleep. *)
Lemma loop_discards q : ∀ rest w fuel,
  driver_pool (pool w) = q ++ rest →
  Forall (idle_invalid w) q →
  window_open s t w →
  get_driver_loop (length q + fuel) s t w =
  get_driver_loop fuel s t (discard q rest w).
Proof.
  induction q as [|i q IH]; intros rest w fuel Hq Hinv Ho.
  - cbn in *. f_equal. destruct w as [[] []]. unfold discard. cbn in *.
    subst. f_equal; f_equal; [lia | by rewrite app_nil_r].
  - apply Forall_cons in Hinv as [Hi Hinv].
    cbn [length Nat.add]. rewrite loop_window_open by done.
    rewrite (body_idle_invalid w i (q ++ rest)) by done.
    rewrite (IH rest).
    + f_equal. unfold discard. cbn. f_equal; f_equal; [lia|].
      by rewrite <- app_assoc.
    + done.
    + by apply (idle_invalid_transfer w).
    + done.
Qed.



End loop.

Lemma get_driver_window timeout w :
  window_open (now (env w)) timeout w ↔ 0 < timeout.
Proof. unfold window_open. lia. Qed.

Lemma discard_nothing w :
  driver_pool (pool w) = [] → discard [] [] w = w.
Proof.
  destruct w as [[] []]. unfold discard. cbn. intros ->.
  f_equal; f_equal; [lia | by rewrite app_nil_r].
Qed.

(** [get_driver] once every idle entry has been turned down: the passes
    left go to the launcher or to sleeping. *)
Lemma get_driver_discards_all timeout w :
  0 < timeout →
  Forall (idle_invalid w) (driver_pool (pool w)) →
  get_driver timeout w =
  get_driver_loop (Z.to_nat (timeout * 1000) + 1) (now (env w)) timeout
    (discard (driver_pool (pool w)) [] w).
Proof.
  intros Hpos Hinv. unfold get_driver, get_driver_fuel.
  rewrite <- Nat.add_assoc. apply loop_discards; [|done|].
  - by rewrite app_nil_r.
  - by apply get_driver_window.
Qed.


(** C6.  When the launcher fails as [get_driver] tries to create a
    driver, the caller gets that failure; no entry is added to the active
    map, nothing is counted, and with no invalid idle entry to discard on
    the way the world is left as it was. *)
Theorem creation_failure_propagates (timeout : Z) (w : World) (x : fault) :
  0 < timeout →
  chrome (env w) = LaunchFails x →
  Forall (idle_invalid w) (driver_pool (pool w)) →
  pool_size (pool w) - Z.of_nat (length (driver_pool (pool w))) < max_drivers (pool w) →
  ∃ w', get_driver timeout w = Some (Raise (Fault x), w') ∧
        active_drivers (pool w') = active_drivers (pool w) ∧
        pool_size (pool w') = pool_size (pool w) - Z.of_nat (length (driver_pool (pool w))) ∧
        pool_size (pool w') ≤ pool_size (pool w) ∧
        launched (env w') = launched (env w) ∧
        (driver_pool (pool w) = [] → w' = w).
Proof.
  intros Hpos Hc Hinv Hroom.
  exists (discard (driver_pool (pool w)) [] w).
  rewrite get_driver_discards_all by done. rewrite Nat.add_1_r.
  rewrite loop_window_open by (unfold window_open; cbn; lia).
  rewrite (body_empty_launch_fails _ x) by done.
  split_and!; try done.
  - cbn. lia.
  - intros Hq. rewrite Hq. by apply discard_nothing.
Qed.

(** ** The validator *)

Lemma caught_classes x :
  caught_by_validator x = true ↔
  x ∈ [InvalidSessionIdException; NoSuchWindowException; WebDriverException].
Proof. rewrite !elem_of_cons, elem_of_nil. destruct x; naive_solver. Qed.

(** C8 (as amended).  [_is_driver_valid] answers False for a falsy
    argument and when the probe raises one of the selenium classes of its
    [except] clause, True when the probe succeeds, and lets every other
    fault of the probe through to its caller: out of [release_driver]
    when it probes a leased driver within its age, out of [get_driver]
    when it probes the head of the queue. *)
Theorem validator_outcomes (w : World) (d : Driver) :
  _is_driver_valid None w = Ret false ∧
  (_is_driver_valid (Some d) w = Ret true ↔ current_url (env w) d = None) ∧
  (_is_driver_valid (Some d) w = Ret false ↔
     ∃ x, current_url (env w) d = Some x ∧
          x ∈ [InvalidSessionIdException; NoSuchWindowException; WebDriverException]) ∧
  (∀ e, _is_driver_valid (Some d) w = Raise e ↔
     e = Fault OtherException ∧ current_url (env w) d = Some OtherException) ∧
  (∀ info e,
     _is_driver_valid (Some d) w = Raise e →
     active_drivers (pool w) !! addr d = Some info →
     now (env w) - created_at info ≤ max_driver_age (pool w) * 1000 →
     (release_driver (Some d) w).1 = Raise e) ∧
  (∀ c rest timeout e,
     _is_driver_valid (Some d) w = Raise e →
     driver_pool (pool w) = mkIdle d c :: rest →
     0 < timeout →
     fst <$> get_driver timeout w = Some (Raise e)).
Proof.
  split; [done|].
  split_and!.
  - unfold _is_driver_valid.
    destruct (current_url (env w) d) as [[]|]; cbn; naive_solver.
  - unfold _is_driver_valid. setoid_rewrite <- caught_classes.
    destruct (current_url (env w) d) as [[]|]; cbn; naive_solver.
  - unfold _is_driver_valid.
    destruct (current_url (env w) d) as [[]|]; cbn; naive_solver.
  - intros info e Hv Hin Hage.
    rewrite (release_tracked_young d w info) by done. cbv zeta. by rewrite Hv.
  - intros c rest timeout e Hv Hq Hpos.
    unfold get_driver, get_driver_fuel. rewrite Hq. cbn [length Nat.add].
    rewrite loop_window_open by (by apply get_driver_window).
    by rewrite (body_idle_fault w (mkIdle d c) rest e).
Qed.

(** ** The maintenance worker *)

Lemma reap_fold l : ∀ w,
  foldl reap_one w l =
  mkWorld
    (mkPool (driver_pool (pool w))
            (foldl (λ m (kd : Z * Driver), delete kd.1 m) (active_drivers (pool w)) l)
            (max_drivers (pool w)) (max_driver_age (pool w))
            (pool_size (pool w) - Z.of_nat (length l)) (running (pool w)))
    (mkEnv (now (env w)) (current_url (env w)) (chrome (env w))
           (launched (env w)) (quit_calls (env w) ++ l.*2) (sweep_error (env w))).
Proof.
  induction l as [|kd l IH]; intros w.
  - destruct w as [[] []]. cbn. f_equal; f_equal; [lia | by rewrite app_nil_r].
  - cbn [foldl]. rewrite IH. unfold reap_one. cbn.
    f_equal; f_equal; [lia | by rewrite <- app_assoc].
Qed.




Lemma stuck_keys_NoDup t (m : gmap Z ActiveInfo) :
  NoDup (stuck_drivers t m).*1.
Proof.
  unfold stuck_drivers. rewrite <- list_fmap_compose.
  eapply sublist_NoDup; [apply (NoDup_fst_map_to_list m)|].
  apply fmap_sublist, sublist_filter.
Qed.


Lemma reap_stuck_eq w :
  let l := stuck_drivers (now (env w)) (active_drivers (pool w)) in
  reap_stuck w =
  mkWorld
    (mkPool (driver_pool (pool w))
            (foldl (λ m (kd : Z * Driver), delete kd.1 m) (active_drivers (pool w)) l)
            (max_drivers (pool w)) (max_driver_age (pool w))
            (pool_size (pool w) - Z.of_nat (length l)) (running (pool w)))
    (mkEnv (now (env w)) (current_url (env w)) (chrome (env w))
           (launched (env w)) (quit_calls (env w) ++ l.*2) (sweep_error (env w))).
Proof. apply reap_fold. Qed.

Lemma check_consistency_spec w :
  let w' := check_consistency w in
  pool_size (pool w') =
    Z.of_nat (size (active_drivers (pool w))) +
    Z.of_nat (length (driver_pool (pool w))) ∧
  driver_pool (pool w') = driver_pool (pool w) ∧
  active_drivers (pool w') = active_drivers (pool w) ∧
  max_drivers (pool w') = max_drivers (pool w) ∧
  running (pool w') = running (pool w) ∧
  env w' = env w.
Proof.
  unfold check_consistency. cbn. by case_decide as Hd; cbn; split_and!.
Qed.



(** ** Reachable worlds *)

Lemma reachable_run ok tr : ∀ w0 w1 w,
  reachable ok w0 w1 → admissible ok tr w1 → run tr w1 = Some w →
  reachable ok w0 w.
Proof.
  induction tr as [|a tr IH]; intros w0 w1 w Hr Hadm Hrun; cbn in *.
  - by injection Hrun as <-.
  - destruct Hadm as [Hok Hadm]. destruct (step a w1) as [w2|] eqn:Hs; [|done].
    eapply IH; [|done|done]. by eapply reachable_step.
Qed.

Lemma reachable_mono (ok ok' : World → action → Prop) w0 w :
  (∀ w a, ok w a → ok' w a) → reachable ok w0 w → reachable ok' w0 w.
Proof. intros Hsub. induction 1; [constructor|econstructor; eauto]. Qed.

Lemma reachable_invariant (ok : World → action → Prop) (I : World → Prop) w0 :
  I w0 →
  (∀ w a w', reachable ok w0 w → I w → ok w a → step a w = Some w' → I w') →
  ∀ w, reachable ok w0 w → I w.
Proof. intros H0 Hstep w. induction 1; eauto. Qed.

Lemma step_total a w : is_Some (step a w).
Proof.
  destruct a; try (by eexists).
  destruct (get_driver_total timeout w) as [[r w'] Hg].
  unfold step. rewrite Hg. by eexists.
Qed.

Lemma run_total tr : ∀ w, is_Some (run tr w).
Proof.
  induction tr as [|a tr IH]; intros w; cbn; [by eexists|].
  destruct (step_total a w) as [w' ->]. apply IH.
Qed.

(** A rule for the loop of [get_driver]: [I] is kept by the passes that
    go round again, [J] is what the passes that leave establish. *)
Lemma loop_rule (I J : World → Prop) s t :
  (∀ w w', I w → get_driver_body w = (Continue, w') → I w') →
  (∀ w w', I w → get_driver_body w = (Sleep, w') → I (time_sleep 500 w')) →
  (∀ w d w', I w → get_driver_body w = (Returned d, w') → J w') →
  (∀ w x w', I w → get_driver_body w = (Raised x, w') → J w') →
  (∀ w, I w → J w) →
  ∀ fuel w r w', I w → get_driver_loop fuel s t w = Some (r, w') → J w'.
Proof.
  intros Hc Hs Hr Hx Ht. induction fuel as [|fuel IH]; intros w r w' HI; [done|].
  destruct (decide (window_open s t w)) as [Ho|Hcl].
  - rewrite loop_window_open by done.
    destruct (get_driver_body w) as [[d| | |x] w1] eqn:Hb.
    + intros [= <- <-]. eauto.
    + eauto.
    + eauto.
    + intros [= <- <-]. eauto.
  - rewrite loop_window_closed by done. intros [= <- <-]. eauto.
Qed.

Lemma get_driver_body_case w :
  body_case w (get_driver_body w).1 (get_driver_body w).2.
Proof.
  destruct (driver_pool (pool w)) as [|i rest] eqn:Hq.
  - destruct (decide (pool_size (pool w) < max_drivers (pool w))) as [Hroom|Hfull].
    + destruct (chrome (env w)) as [a|x] eqn:Hc.
      * rewrite (body_empty_launches w a) by done. cbn. by apply body_create.
      * rewrite (body_empty_launch_fails w x) by done. cbn. by apply body_launch_fails.
    + rewrite body_empty_full by (done || lia). cbn. apply body_wait; [done|lia].
  - destruct (_is_driver_valid (Some (idle_driver i)) w) as [[|]|x] eqn:Hv.
    + rewrite (body_idle_valid_eq w i rest) by done. cbn. by apply (body_reuse w i rest).
    + rewrite (body_idle_invalid w i rest) by done. cbn.
      by apply (body_discard w i rest).
    + rewrite (body_idle_fault w i rest x) by done. cbn. by apply (body_probe_fault w i rest x).
Qed.

Lemma get_driver_body_inv w p w' :
  get_driver_body w = (p, w') → body_case w p w'.
Proof. intros Hb. pose proof (get_driver_body_case w) as H. by rewrite Hb in H. Qed.

Lemma body_sleep_same w w' : get_driver_body w = (Sleep, w') → w' = w.
Proof. intros Hb%get_driver_body_inv. by inversion Hb. Qed.

Lemma shutdown_eq w :
  shutdown w =
  mkWorld
    (mkPool [] ∅ (max_drivers (pool w)) (max_driver_age (pool w)) 0 false)
    (mkEnv (now (env w)) (current_url (env w)) (chrome (env w))
           (launched (env w))
           (quit_calls (env w) ++ (idle_driver <$> driver_pool (pool w)) ++ leased w)
           (sweep_error (env w))).
Proof.
  assert (Hdrain : ∀ q v,
    drain q v =
    mkWorld
      (mkPool (if q is [] then driver_pool (pool v) else [])
              (active_drivers (pool v)) (max_drivers (pool v))
              (max_driver_age (pool v)) (pool_size (pool v)) (running (pool v)))
      (mkEnv (now (env v)) (current_url (env v)) (chrome (env v))
             (launched (env v)) (quit_calls (env v) ++ (idle_driver <$> q))
             (sweep_error (env v)))).
  { induction q as [|i q IH]; intros v.
    - destruct v as [[] []]. cbn. by rewrite app_nil_r.
    - cbn [drain]. rewrite IH. cbn. rewrite <- app_assoc.
      by destruct q. }
  assert (Hquit : ∀ l v,
    foldl quit_active v l =
    mkWorld (pool v)
      (mkEnv (now (env v)) (current_url (env v)) (chrome (env v))
             (launched (env v)) (quit_calls (env v) ++ (driver <$> l))
             (sweep_error (env v)))).
  { induction l as [|i l IH]; intros v.
    - destruct v as [? []]. cbn. by rewrite app_nil_r.
    - cbn [foldl]. rewrite IH. cbn. by rewrite <- app_assoc. }
  unfold shutdown. cbv zeta. rewrite Hdrain, Hquit. cbn.
  unfold leased, drivers_of. rewrite <- app_assoc.
  by destruct (driver_pool (pool w)).
Qed.

Lemma release_driver_case d w :
  release_case d w (release_driver (Some d) w).1 (release_driver (Some d) w).2.
Proof.
  destruct (active_drivers (pool w) !! addr d) as [info|] eqn:Hin.
  2: { rewrite release_untracked by done. by apply release_stray. }
  destruct (decide (now (env w) - created_at info > max_driver_age (pool w) * 1000))
    as [Hold|Hyoung].
  { rewrite (release_tracked_old d w info) by done. cbn.
    apply (release_retire d w info); auto. }
  rewrite (release_tracked_young d w info) by (done || lia). cbv zeta.
  destruct (_is_driver_valid (Some d) w) as [[|]|x] eqn:Hv; cbn.
  - apply (release_requeue d w info); (done || lia).
  - apply (release_retire d w info); auto.
  - apply (release_probe_fault d w info x); (done || lia).
Qed.

(** A turn of the maintenance worker ends after the sleep, after the
    clean-up or after the consistency check. *)
Lemma maintenance_turn_case w :
  let slept := time_sleep 30000 w in
  maintenance_turn w = slept ∨
  maintenance_turn w = reap_stuck slept ∨
  maintenance_turn w = check_consistency (reap_stuck slept).
Proof.
  unfold maintenance_turn, maintenance_pass. cbv zeta.
  destruct (sweep_error (env (time_sleep 30000 w))) as [[]|]; auto.
  all: destruct (sweep_error (env (reap_stuck (time_sleep 30000 w)))) as [[]|]; auto.
Qed.

(** The step of each action, by cases on the worlds it can lead to. *)
Lemma step_cases (P : World → Prop) a w w' :
  step a w = Some w' →
  (∀ t r, a = Acquire t → get_driver t w = Some (r, w') → P w') →
  (a = Release None → P w) →
  (∀ d r, a = Release (Some d) → release_case d w r w' → P w') →
  (a = Maintain → P w) →
  (a = Maintain → P (time_sleep 30000 w)) →
  (a = Maintain → P (reap_stuck (time_sleep 30000 w))) →
  (a = Maintain → P (check_consistency (reap_stuck (time_sleep 30000 w)))) →
  (a = Shutdown → P (shutdown w)) →
  (∀ dt, a = Elapse dt → P (time_sleep dt w)) →
  (∀ d o, a = Session d o → P (set_current_url d o w)) →
  (∀ c, a = Chromedriver c → P (set_chrome c w)) →
  (∀ f, a = SweepFault f → P (set_sweep_error f w)) →
  P w'.
Proof.
  intros Hstep Hacq Hrn Hrs Hm0 Hm1 Hm2 Hm3 Hsh Hel Hse Hch Hsf.
  destruct a as [t | od | | | dt | d o | c | f]; [| destruct od as [d|] | ..];
    cbn in Hstep.
  - destruct (get_driver t w) as [[r w1]|] eqn:Hg; [|done].
    cbn in Hstep. injection Hstep as <-. eauto.
  - injection Hstep as <-. eapply Hrs; [done|]. apply release_driver_case.
  - injection Hstep as <-. eauto.
  - injection Hstep as <-.
    destruct (running (pool w)); [|eauto].
    destruct (maintenance_turn_case w) as [-> | [-> | ->]]; eauto.
  - injection Hstep as <-. eauto.
  - injection Hstep as <-. eauto.
  - injection Hstep as <-. eauto.
  - injection Hstep as <-. eauto.
  - injection Hstep as <-. eauto.
Qed.

(** ** Keys and ids *)

Lemma foldl_delete_subseteq (l : list (Z * Driver)) : ∀ (m : gmap Z ActiveInfo),
  foldl (λ m (kd : Z * Driver), delete kd.1 m) m l ⊆ m.
Proof.
  induction l as [|kd l IH]; intros m; cbn; [done|].
  etrans; [apply IH|]. apply delete_subseteq.
Qed.

(** Dropping idle entries and leases keeps the structure. *)
Lemma structure_shrink w w' :
  driver_pool (pool w') `sublist_of` driver_pool (pool w) →
  active_drivers (pool w') ⊆ active_drivers (pool w) →
  structure_inv w → structure_inv w'.
Proof.
  intros Hq Ha [HK HD HN]. split.
  - intros k info Hin. apply HK. by eapply lookup_weaken.
  - unfold idle_addrs. eapply sublist_NoDup; [exact HD|]. by apply fmap_sublist.
  - intros i Hi. eapply lookup_weaken_None; [|exact Ha].
    apply HN. by eapply elem_of_sublist.
Qed.

Lemma structure_same_pool w w' :
  pool w' = pool w → structure_inv w → structure_inv w'.
Proof. intros E. apply structure_shrink; by rewrite E. Qed.

Lemma structure_body w p w' :
  structure_inv w → feasible w (Acquire 0) →
  get_driver_body w = (p, w') →
  structure_inv w' ∧ (p = Continue → feasible w' (Acquire 0)).
Proof.
  intros HS Hfresh Hb. apply get_driver_body_inv in Hb.
  destruct Hb as [i rest Hq Hv|i rest Hq Hv|i rest x Hq Hv|Hq Hfull|a Hq Hroom Hc|x Hq Hroom Hc].
  - split; [|done]. destruct HS as [HK HD HN]. unfold idle_addrs in HD.
    rewrite Hq in HD. cbn in HD. apply NoDup_cons in HD as [Hi HD].
    split; cbn.
    + intros k info. rewrite lookup_insert.
      case_decide; [by intros [= <-] | apply HK].
    + done.
    + intros i' Hi'. rewrite lookup_insert_ne.
      * apply HN. rewrite Hq. by right.
      * intros E. apply Hi. rewrite E.
        by apply (list_elem_of_fmap_2 (λ i : IdleInfo, addr (idle_driver i))).
  - assert (structure_inv (discard [i] rest w)) as HS'.
    { eapply structure_shrink; [| |exact HS]; cbn; [|done].
      rewrite Hq. by apply sublist_cons. }
    split; [done|]. intros _. revert Hfresh. cbn.
    destruct (chrome (env w)) as [x|]; [|done]. intros [Hnq Hna].
    split; [|done]. intros Hin. apply Hnq. unfold idle_addrs.
    rewrite Hq. cbn. by right.
  - split; [|done]. eapply structure_shrink; [| |exact HS]; cbn; [|done].
    rewrite Hq. by apply sublist_cons.
  - done.
  - split; [|done]. destruct HS as [HK HD HN]. split; cbn.
    + intros k info. rewrite lookup_insert.
      case_decide; [by intros [= <-] | apply HK].
    + constructor.
    + intros i' Hi'. by apply elem_of_nil in Hi'.
  - done.
Qed.

Lemma structure_get_driver t w r w' :
  structure_inv w → feasible w (Acquire t) →
  get_driver t w = Some (r, w') → structure_inv w'.
Proof.
  intros HS Hf. unfold get_driver.
  apply (loop_rule (λ v, structure_inv v ∧ feasible v (Acquire 0)) structure_inv).
  - intros v v' [HSv Hfv] Hb.
    destruct (structure_body v Continue v' HSv Hfv Hb). auto.
  - intros v v' [HSv Hfv] Hb. apply body_sleep_same in Hb as ->.
    split; [by apply (structure_same_pool v)|done].
  - intros v d v' [HSv Hfv] Hb.
    by destruct (structure_body v (Returned d) v' HSv Hfv Hb).
  - intros v x v' [HSv Hfv] Hb.
    by destruct (structure_body v (Raised x) v' HSv Hfv Hb).
  - by intros v [? ?].
  - done.
Qed.

Lemma structure_release d w r w' :
  structure_inv w → release_case d w r w' → structure_inv w'.
Proof.
  intros HS Hr.
  destruct Hr as [info Hin _|info Hin _ _|info x Hin _ _|Hout].
  - eapply structure_shrink; [| |exact HS]; cbn; [done|apply delete_subseteq].
  - destruct HS as [HK HD HN]. split; cbn.
    + intros k info' Hk. apply lookup_delete_Some in Hk as [_ Hk]. by apply HK.
    + unfold idle_addrs in *. cbn. rewrite fmap_app. cbn.
      apply NoDup_app. split_and!; [done| |apply NoDup_singleton].
      intros a [i [-> Hi]]%list_elem_of_fmap [= E]%list_elem_of_singleton.
      apply HN in Hi. rewrite E in Hi. congruence.
    + intros i [Hi|[= ->]%list_elem_of_singleton]%elem_of_app.
      * apply lookup_delete_None. right. by apply HN.
      * cbn. apply lookup_delete_eq.
  - eapply structure_shrink; [| |exact HS]; cbn; [done|apply delete_subseteq].
  - by apply (structure_same_pool w).
Qed.

Lemma structure_step w a w' :
  structure_inv w → feasible w a → step a w = Some w' → structure_inv w'.
Proof.
  intros HS Hf Hstep.
  apply (step_cases structure_inv a w w' Hstep); try done.
  - intros t r -> Hg. by eapply structure_get_driver.
  - intros d r -> Hr. by eapply structure_release.
  - intros _. by apply (structure_same_pool w).
  - intros _. eapply structure_shrink; [| |exact HS]; rewrite reap_stuck_eq; cbn;
      [done|apply foldl_delete_subseteq].
  - intros _.
    destruct (check_consistency_spec (reap_stuck (time_sleep 30000 w)))
      as (_ & Hq & Ha & _).
    eapply structure_shrink; [| |exact HS]; cbv zeta in *; rewrite ?Hq, ?Ha;
      rewrite reap_stuck_eq; cbn; [done|apply foldl_delete_subseteq].
  - intros _. rewrite shutdown_eq.
    eapply structure_shrink; [| |exact HS]; cbn;
      [apply sublist_nil_l | apply map_empty_subseteq].
  - intros dt _. by apply (structure_same_pool w).
  - intros d o _. by apply (structure_same_pool w).
  - intros c _. by apply (structure_same_pool w).
  - intros f _. by apply (structure_same_pool w).
Qed.

Lemma structure_fresh m age t c : structure_inv (fresh m age t c).
Proof. split; cbn; [done|constructor|]. intros i Hi. by apply elem_of_nil in Hi. Qed.

Lemma structure_reachable m age t c w :
  reachable feasible (fresh m age t c) w → structure_inv w.
Proof.
  apply (reachable_invariant feasible structure_inv); [apply structure_fresh|].
  intros. by eapply structure_step.
Qed.

(** ** The count *)


Lemma expected_probe_returns d w :
  (∀ d x, current_url (env w) d = Some x → caught_by_validator x = true) →
  ∀ e, _is_driver_valid d w ≠ Raise e.
Proof.
  intros Hexp e. destruct d as [d|]; [|done]. cbn.
  destruct (current_url (env w) d) as [x|] eqn:Hx; [|done].
  by rewrite (Hexp d x Hx).
Qed.











(** ** The ledger of launched drivers *)

Lemma perm_rotate {A} (x y z : list A) : x ++ y ++ z ≡ₚ z ++ x ++ y.
Proof. rewrite app_assoc. apply Permutation_app_comm. Qed.

Lemma drivers_of_empty : drivers_of ∅ = [].
Proof. unfold drivers_of. by rewrite map_to_list_empty. Qed.

Lemma drivers_of_insert (m : gmap Z ActiveInfo) k v :
  m !! k = None → drivers_of (<[k := v]> m) ≡ₚ driver v :: drivers_of m.
Proof. intros Hk. unfold drivers_of. by rewrite map_to_list_insert. Qed.

Lemma drivers_of_delete (m : gmap Z ActiveInfo) k v :
  m !! k = Some v → drivers_of m ≡ₚ driver v :: drivers_of (delete k m).
Proof. intros Hk. unfold drivers_of. by rewrite <- (map_to_list_delete m k v). Qed.

Lemma drivers_of_foldl_delete (l : list (Z * Driver)) : ∀ (m : gmap Z ActiveInfo),
  NoDup l.*1 →
  (∀ k d, (k, d) ∈ l → ∃ info, m !! k = Some info ∧ driver info = d) →
  drivers_of m ≡ₚ
  l.*2 ++ drivers_of (foldl (λ m (kd : Z * Driver), delete kd.1 m) m l).
Proof.
  induction l as [|[k d] l IH]; intros m Hnd Hin; [done|].
  cbn in Hnd. apply NoDup_cons in Hnd as [Hk Hnd].
  destruct (Hin k d) as (info & Hm & <-); [by left|].
  cbn. rewrite (drivers_of_delete m k info Hm). f_equiv.
  apply IH; [done|]. intros k' d' Hin'.
  destruct (Hin k' d') as (info' & Hm' & <-); [by right|].
  exists info'. split; [|done]. rewrite lookup_delete_ne; [done|].
  intros <-. apply Hk. by apply (list_elem_of_fmap_2 fst) in Hin'.
Qed.

Lemma stuck_drivers_entries t (m : gmap Z ActiveInfo) k d :
  (k, d) ∈ stuck_drivers t m → ∃ info, m !! k = Some info ∧ driver info = d.
Proof.
  unfold stuck_drivers.
  intros ([k' info] & [= -> ->] & [_ Hin%elem_of_map_to_list]%list_elem_of_filter)
    %list_elem_of_fmap.
  eauto.
Qed.

Lemma ledger_same w w' :
  driver_pool (pool w') = driver_pool (pool w) →
  active_drivers (pool w') = active_drivers (pool w) →
  launched (env w') = launched (env w) →
  quit_calls (env w') = quit_calls (env w) →
  current_url (env w') = current_url (env w) →
  ledger_inv w → ledger_inv w'.
Proof.
  intros Eq Ea El Ec Eu [? ? ? ?]. unfold leased in *.
  split; unfold leased; rewrite ?Eq, ?Ea, ?El, ?Ec, ?Eu; done.
Qed.

Lemma ledger_body w p w' :
  structure_inv w → ledger_inv w → feasible w (Acquire 0) →
  get_driver_body w = (p, w') → ledger_inv w'.
Proof.
  intros HS [Hbal Hses Hnd Hpr] Hfresh Hb. apply get_driver_body_inv in Hb.
  unfold leased in Hbal.
  destruct Hb as [i rest Hq Hv|i rest Hq Hv|i rest x Hq Hv|Hq Hfull|a Hq Hroom Hc|x Hq Hroom Hc].
  - split; unfold leased; cbn; try done.
    rewrite drivers_of_insert
      by (apply (idle_not_active w HS); rewrite Hq; by left).
    rewrite Hbal, Hq. cbn. by rewrite <- Permutation_middle.
  - split; unfold leased; cbn; try done.
    rewrite Hbal, Hq. cbn.
    rewrite !app_assoc. by rewrite <- Permutation_cons_append.
  - by apply expected_probe_returns in Hv.
  - by split.
  - cbn in Hfresh. rewrite Hc in Hfresh. destruct Hfresh as [_ Hna].
    split; unfold leased; cbn.
    + rewrite drivers_of_insert by done. rewrite Hq in Hbal. cbn in *.
      by rewrite <- Permutation_cons_append, Hbal.
    + intros d' [Hd'|[= ->]%list_elem_of_singleton]%elem_of_app;
        rewrite length_app; cbn; [apply Hses in Hd'|]; lia.
    + apply NoDup_app. split_and!; [done| |apply NoDup_singleton].
      intros d' Hd' [= ->]%list_elem_of_singleton.
      apply Hses in Hd'. cbn in Hd'. lia.
    + done.
  - by split.
Qed.

Lemma ledger_get_driver t w r w' :
  structure_inv w → ledger_inv w → feasible w (Acquire t) →
  get_driver t w = Some (r, w') → ledger_inv w'.
Proof.
  intros HS HL Hf. unfold get_driver.
  apply (loop_rule (λ v, (structure_inv v ∧ feasible v (Acquire 0)) ∧ ledger_inv v)
           ledger_inv).
  - intros v v' [[HSv Hfv] HLv] Hb.
    destruct (structure_body v Continue v' HSv Hfv Hb) as [? Hf'].
    split; [auto|]. by apply (ledger_body v Continue v').
  - intros v v' [[HSv Hfv] HLv] Hb. apply body_sleep_same in Hb as ->.
    split; [split; [by apply (structure_same_pool v)|done]|].
    by apply (ledger_same v).
  - intros v d v' [[HSv Hfv] HLv] Hb. by apply (ledger_body v (Returned d) v').
  - intros v x v' [[HSv Hfv] HLv] Hb. by apply (ledger_body v (Raised x) v').
  - by intros v [_ ?].
  - done.
Qed.

Lemma ledger_release d w r w' :
  ledger_inv w → held w (Release (Some d)) →
  release_case d w r w' → ledger_inv w'.
Proof.
  intros [Hbal Hses Hnd Hpr] Hheld Hr. cbn in Hheld. unfold leased in Hbal.
  destruct Hr as [info Hin _|info Hin _ _|info x Hin _ Hv|Hout].
  - rewrite Hin in Hheld. injection Hheld as Hd.
    split; unfold leased; simpl_world; try done.
    rewrite Hbal, (drivers_of_delete _ _ _ Hin), Hd.
    rewrite (app_assoc _ (quit_calls (env w))).
    rewrite <- Permutation_cons_append. cbn. by rewrite <- Permutation_middle.
  - rewrite Hin in Hheld. injection Hheld as Hd.
    split; unfold leased; simpl_world; try done.
    rewrite Hbal, (drivers_of_delete _ _ _ Hin), Hd, fmap_app. cbn.
    rewrite <- app_assoc. cbn. by rewrite <- !Permutation_middle.
  - by apply expected_probe_returns in Hv.
  - by rewrite Hout in Hheld.
Qed.

Lemma ledger_reap w : ledger_inv w → ledger_inv (reap_stuck w).
Proof.
  intros [Hbal Hses Hnd Hpr]. rewrite reap_stuck_eq. cbv zeta.
  split; unfold leased in *; cbn; try done.
  rewrite Hbal.
  rewrite (drivers_of_foldl_delete
             (stuck_drivers (now (env w)) (active_drivers (pool w)))
             (active_drivers (pool w)))
    by (apply stuck_keys_NoDup || apply stuck_drivers_entries).
  f_equiv. rewrite <- !app_assoc.
  etrans; [apply Permutation_app_comm|]. by rewrite <- !app_assoc.
Qed.

Lemma ledger_check w : ledger_inv w → ledger_inv (check_consistency w).
Proof.
  destruct (check_consistency_spec w) as (_ & Hq & Ha & _ & _ & He).
  cbv zeta in *. apply ledger_same; by rewrite ?He.
Qed.

Lemma ledger_step w a w' :
  structure_inv w → ledger_inv w → disciplined w a →
  step a w = Some w' → ledger_inv w'.
Proof.
  intros HS HL [[Hf He] Hh] Hstep.
  apply (step_cases ledger_inv a w w' Hstep); try done.
  - intros t r -> Hg. by eapply ledger_get_driver.
  - intros d r -> Hr. by eapply ledger_release.
  - intros _. by apply (ledger_same w).
  - intros _. apply ledger_reap. by apply (ledger_same w).
  - intros _. apply ledger_check, ledger_reap. by apply (ledger_same w).
  - intros _. rewrite shutdown_eq. destruct HL as [Hbal ? ? ?].
    split; unfold leased in *; cbn; try done.
    rewrite Hbal, drivers_of_empty. cbn. apply perm_rotate.
  - intros dt _. by apply (ledger_same w).
  - intros d o ->. destruct HL as [? ? ? Hpr]. split; try done. cbn.
    intros d' x. case_decide; [|apply Hpr]. intros ->. exact He.
  - intros c _. by apply (ledger_same w).
  - intros f _. by apply (ledger_same w).
Qed.

Lemma ledger_fresh m age t c : ledger_inv (fresh m age t c).
Proof.
  split; cbn; try done.
  - intros d Hd. by apply elem_of_nil in Hd.
  - constructor.
Qed.

Lemma disciplined_feasible w a : disciplined w a → feasible w a.
Proof. by intros [[? _] _]. Qed.

Lemma ledger_reachable m age t c w :
  reachable disciplined (fresh m age t c) w → structure_inv w ∧ ledger_inv w.
Proof.
  apply (reachable_invariant disciplined (λ v, structure_inv v ∧ ledger_inv v)).
  - split; [apply structure_fresh | apply ledger_fresh].
  - intros v a v' _ [HS HL] Hd Hstep. split.
    + eapply structure_step; [done| |done]. by apply disciplined_feasible.
    + by eapply ledger_step.
Qed.


(** C7 (as amended).  The active map is keyed by [id(driver)], the
    address of the driver object: every entry sits under the address of
    the driver it holds, [release_driver] finds and removes entries by
    the address of its argument alone, and as long as new drivers get
    addresses that no tracked driver has, no id is tracked twice at the
    same time, in the queue or in the active map. *)
Theorem tracked_by_address (m age t : Z) (c : launch) (w : World) :
  reachable feasible (fresh m age t c) w →
  (∀ k info, active_drivers (pool w) !! k = Some info → k = addr (driver info)) ∧
  NoDup (idle_addrs w ++ (map_to_list (active_drivers (pool w))).*1) ∧
  (∀ d1 d2, addr d1 = addr d2 →
     active_drivers (pool (release_driver (Some d1) w).2) =
     active_drivers (pool (release_driver (Some d2) w).2)).
Proof.
  intros Hr. destruct (structure_reachable m age t c w Hr) as [HK HD HN].
  split_and!.
  - intros k info Hin. symmetry. by apply HK.
  - apply NoDup_app. split_and!; [done| |apply NoDup_fst_map_to_list].
    intros a [i [-> Hi]]%list_elem_of_fmap [[k info] [Hk Hin]]%list_elem_of_fmap.
    cbn in Hk. subst k. apply elem_of_map_to_list in Hin.
    apply HN in Hi. congruence.
  - intros d1 d2 E.
    assert (Hmap : ∀ d, active_drivers (pool (release_driver (Some d) w).2)
                        = delete (addr d) (active_drivers (pool w))).
    { intros d. destruct (release_driver_case d w) as [info ? _|info ? _ _|info x ? _ _|Hout];
        simpl_world; try done. by rewrite delete_id. }
    by rewrite !Hmap, E.
Qed.

(** * Concrete runs *)



Example first_lease : run [Acquire 10] w0 = Some leased_world.
Proof. vm_compute. reflexivity. Qed.




(** C6, witness: an empty pool whose launcher fails. *)
Lemma creation_failure_propagates_witness :
  ∃ w', get_driver 10 (fresh 1 1800 0 (LaunchFails WebDriverException))
        = Some (Raise (Fault WebDriverException), w') ∧
        active_drivers (pool w') = ∅ ∧
        pool_size (pool w') = 0 ∧
        w' = fresh 1 1800 0 (LaunchFails WebDriverException).
Proof.
  destruct (creation_failure_propagates 10
              (fresh 1 1800 0 (LaunchFails WebDriverException)) WebDriverException)
    as (w' & Hg & Ha & Hs & _ & _ & Hw);
    [lia | reflexivity | constructor | cbn; lia |].
  exists w'. rewrite (Hw eq_refl) in *. by split_and!.
Defined.

(** C7, counterexample.  [d0] is leased under id 7 and, its lease being
    330 seconds old, reaped by the maintenance worker; the next driver is
    built at the address [d0] had, and the pool tracks it under the id
    [d0] was tracked under. *)
Lemma id_reused_for_another_driver :
  admissible feasible [Acquire 10; Elapse 300000; Maintain; Acquire 10] w0 ∧
  ∃ w w',
    run [Acquire 10] w0 = Some w ∧
    run [Elapse 300000; Maintain; Acquire 10] w = Some w' ∧
    driver <$> active_drivers (pool w) !! 7 = Some d0 ∧
    driver <$> active_drivers (pool w') !! 7 = Some d1 ∧
    quit_calls (env w') = [d0] ∧
    launched (env w') = [d0; d1] ∧
    d0 ≠ d1 ∧ addr d0 = addr d1.
Proof.
  split; [compute_done|]. do 2 eexists.
  split; [vm_compute; reflexivity|]. split; [vm_compute; reflexivity|].
  by vm_compute.
Qed.

(** C7, witness: the ids after a lease, and the release of two drivers
    that share an address. *)
Lemma tracked_by_address_witness :
  NoDup (idle_addrs leased_world ++
         (map_to_list (active_drivers (pool leased_world))).*1) ∧
  active_drivers (pool (release_driver (Some d0) leased_world).2) =
  active_drivers (pool (release_driver (Some d1) leased_world).2).
Proof.
  destruct (tracked_by_address 1 1800 0 (Launches 7) leased_world)
    as (_ & Hnd & Hrel).
  - eapply (reachable_run feasible [Acquire 10]);
      [apply reachable_start | compute_done | vm_compute; reflexivity].
  - split; [exact Hnd | by apply Hrel].
Defined.

(** C8, counterexample.  With a session that fails outside the selenium
    family the validator raises, and so do [release_driver] on the
    leased driver and [get_driver] on the idle one. *)
Lemma validator_lets_faults_through :
  let broken := set_current_url d0 (Some OtherException) in
  _is_driver_valid (Some d0) (broken leased_world) = Raise (Fault OtherException) ∧
  (¬ ∃ b, _is_driver_valid (Some d0) (broken leased_world) = Ret b) ∧
  (release_driver (Some d0) (broken leased_world)).1 = Raise (Fault OtherException) ∧
  ∃ w, run [Acquire 10; Release (Some d0); Session d0 (Some OtherException)] w0
       = Some w ∧
       fst <$> get_driver 10 w = Some (Raise (Fault OtherException)).
Proof.
  split_and!; try done.
  - by intros [b [=]].
  - eexists. split; [vm_compute; reflexivity|]. by vm_compute.
Qed.

(** C9, witness: [d0] handed to a pool that never leased it. *)
Lemma release_unknown_driver_witness :
  (release_driver (Some d0) w0).1 = Ret tt ∧
  quit_calls (env (release_driver (Some d0) w0).2) = [d0] ∧
  pool (release_driver (Some d0) w0).2 = pool w0.
Proof. apply (release_unknown_driver d0 w0). reflexivity. Defined.

(** The scenario of the specification: capacity one and a ten second
    timeout.  The first call creates [d0] at once, the second times out
    ten seconds later, and after the release the third gets [d0] again
    without a launch. *)
Example capacity_one_scenario :
  ∃ w1 w2 w3 w4,
    get_driver 10 w0 = Some (Ret d0, w1) ∧ now (env w1) = 0 ∧
    get_driver 10 w1 = Some (Raise TimeoutError, w2) ∧ now (env w2) = 10000 ∧
    release_driver (Some d0) w2 = (Ret tt, w3) ∧
    length (driver_pool (pool w3)) = 1%nat ∧
    get_driver 10 w3 = Some (Ret d0, w4) ∧ launched (env w4) = [d0].
Proof.
  do 4 eexists.
  split; [vm_compute; reflexivity|]. split; [reflexivity|].
  split; [vm_compute; reflexivity|]. split; [reflexivity|].
  split; [vm_compute; reflexivity|]. split; [reflexivity|].
  split; [vm_compute; reflexivity|]. reflexivity.
Qed.

(** The second scenario of the specification: the session of [d0] is
    gone when it is released, so the release quits it and brings the
    count to zero, and the next call launches [d1]. *)
Example invalid_at_release_scenario :
  ∃ w,
    run [Acquire 10; Session d0 (Some InvalidSessionIdException);
         Release (Some d0)] w0 = Some w ∧
    pool_size (pool w) = 0 ∧ quit_calls (env w) = [d0] ∧
    fst <$> get_driver 10 w = Some (Ret d1).
Proof. eexists. split; [vm_compute; reflexivity|]. by vm_compute. Qed.

(** A lease left alone for 330 seconds is reaped by the next pass of the
    maintenance worker; a pass struck by a fault reaps nothing and the
    pass after it does. *)
Example reaper_scenario :
  ∃ w w',
    run [Acquire 10; Elapse 300000; SweepFault (Some FaultBeforeScan); Maintain] w0
    = Some w ∧
    driver <$> active_drivers (pool w) !! 7 = Some d0 ∧
    quit_calls (env w) = [] ∧ running (pool w) = true ∧
    run [SweepFault None; Maintain] w = Some w' ∧
    active_drivers (pool w') = ∅ ∧
    quit_calls (env w') = [d0] ∧ pool_size (pool w') = 0.
Proof.
  do 2 eexists. split; [vm_compute; reflexivity|].
  split_and!; first [by vm_compute | vm_compute; reflexivity].
Qed.

(** * Further properties of the pool *)

(** ** shutdown *)






(** ** Leases *)

(** The rule for the loop of [get_driver], with what is returned. *)
Lemma loop_rule_result (I : World → Prop) (J : result Driver → World → Prop) s t :
  (∀ w w', I w → get_driver_body w = (Continue, w') → I w') →
  (∀ w w', I w → get_driver_body w = (Sleep, w') → I (time_sleep 500 w')) →
  (∀ w d w', I w → get_driver_body w = (Returned d, w') → J (Ret d) w') →
  (∀ w x w', I w → get_driver_body w = (Raised x, w') → J (Raise x) w') →
  (∀ w, I w → J (Raise TimeoutError) w) →
  ∀ fuel w r w', I w → get_driver_loop fuel s t w = Some (r, w') → J r w'.
Proof.
  intros Hc Hs Hr Hx Ht. induction fuel as [|fuel IH]; intros w r w' HI; [done|].
  destruct (decide (window_open s t w)) as [Ho|Hcl].
  - rewrite loop_window_open by done.
    destruct (get_driver_body w) as [[d| | |x] w1] eqn:Hb.
    + intros [= <- <-]. eauto.
    + eauto.
    + eauto.
    + intros [= <- <-]. eauto.
  - rewrite loop_window_closed by done. intros [= <- <-]. eauto.
Qed.

Lemma get_driver_registers timeout w w' d :
  get_driver timeout w = Some (Ret d, w') →
  ∃ info, active_drivers (pool w') !! addr d = Some info ∧
          driver info = d ∧ last_used info = now (env w').
Proof.
  unfold get_driver. intros Hg.
  assert (HJ : ∀ d0, Ret d = Ret d0 →
            ∃ info, active_drivers (pool w') !! addr d0 = Some info ∧
                    driver info = d0 ∧ last_used info = now (env w')).
  { revert Hg.
    apply (loop_rule_result (λ _, True)
             (λ r v, ∀ d0, r = Ret d0 →
                ∃ info, active_drivers (pool v) !! addr d0 = Some info ∧
                        driver info = d0 ∧ last_used info = now (env v)));
      try done.
    intros v d' v' _ Hb%get_driver_body_inv d'' [= <-].
    inversion Hb; subst; cbn; eexists; (split; [apply lookup_insert_eq|done]). }
  by apply HJ.
Qed.

(** X3.  A driver handed out by [get_driver] is registered: when the call
    returns, the active map holds the driver under its id, with
    [last_used] set to the time of the return. *)
Theorem returned_driver_is_leased (timeout : Z) (w w' : World) (d : Driver) :
  get_driver timeout w = Some (Ret d, w') →
  ∃ info, active_drivers (pool w') !! addr d = Some info ∧
          driver info = d ∧ last_used info = now (env w').
Proof. apply get_driver_registers. Qed.

(** X3, witness: the first lease on [w0]. *)
Lemma returned_driver_is_leased_witness :
  ∃ info, active_drivers (pool leased_world) !! addr d0 = Some info ∧
          driver info = d0 ∧ last_used info = now (env leased_world).
Proof.
  apply (returned_driver_is_leased 10 w0 leased_world d0).
  vm_compute. reflexivity.
Defined.

(** X4.  Where no id is tracked twice and the launcher's next address is
    fresh, [get_driver] hands out a driver whose id was not leased when
    it was called, and the leases there were stay as they are: no two
    holders ever share an id. *)
Theorem lease_ids_are_distinct (timeout : Z) (w w' : World) (d : Driver) :
  structure_inv w →
  feasible w (Acquire timeout) →
  get_driver timeout w = Some (Ret d, w') →
  active_drivers (pool w) !! addr d = None ∧
  ∀ k info, active_drivers (pool w) !! k = Some info →
            active_drivers (pool w') !! k = Some info.
Proof.
  intros HS Hf Hg.
  assert (HJ : ∀ d0, Ret d = Ret d0 →
            active_drivers (pool w) !! addr d0 = None ∧
            active_drivers (pool w') = <[addr d0 := default (mkActive d0 0 0)
                                          (active_drivers (pool w') !! addr d0)]>
                                         (active_drivers (pool w))).
  { revert Hg. unfold get_driver.
    apply (loop_rule_result
             (λ v, (structure_inv v ∧ feasible v (Acquire 0)) ∧
                   active_drivers (pool v) = active_drivers (pool w))
             (λ r v, ∀ d0, r = Ret d0 →
                active_drivers (pool w) !! addr d0 = None ∧
                active_drivers (pool v) = <[addr d0 := default (mkActive d0 0 0)
                                             (active_drivers (pool v) !! addr d0)]>
                                            (active_drivers (pool w)))).
    - intros v v' [[HSv Hfv] Ha] Hb.
      destruct (structure_body v Continue v' HSv Hfv Hb) as [? Hf'].
      split; [auto|]. apply get_driver_body_inv in Hb. by inversion Hb; subst.
    - intros v v' [[HSv Hfv] Ha] Hb%body_sleep_same. subst.
      split; [split; [by apply (structure_same_pool v)|done]|done].
    - intros v d' v' [[HSv Hfv] Ha] Hb%get_driver_body_inv d'' [= <-].
      inversion Hb as [i rest Hq Hv| | | |a Hq Hroom Hc|]; subst; cbn.
      + rewrite <- Ha, lookup_insert_eq. cbn. split; [|done].
        apply (idle_not_active v HSv). rewrite Hq. by left.
      + rewrite <- Ha, lookup_insert_eq. cbn. split; [|done].
        cbn in Hfv. rewrite Hc in Hfv. by destruct Hfv.
    - done.
    - done.
    - done. }
  destruct (HJ d eq_refl) as [Hnone Heq]. split; [done|].
  intros k info Hk. rewrite Heq. rewrite lookup_insert_ne; [done|].
  intros <-. congruence.
Qed.

(** X4, witness: with [d0] leased and the launcher moved on to address 8,
    a pool of capacity two hands out a driver under another id. *)
Lemma lease_ids_are_distinct_witness :
  ∃ w w' d,
    run [Acquire 10; Chromedriver (Launches 8)] (fresh 2 1800 0 (Launches 7))
    = Some w ∧
    get_driver 10 w = Some (Ret d, w') ∧
    active_drivers (pool w) !! addr d = None ∧
    ∀ k info, active_drivers (pool w) !! k = Some info →
              active_drivers (pool w') !! k = Some info.
Proof.
  do 3 eexists. split; [vm_compute; reflexivity|].
  split; [vm_compute; reflexivity|].
  apply (lease_ids_are_distinct 10).
  - eapply (structure_reachable 2 1800 0 (Launches 7)).
    eapply (reachable_run feasible [Acquire 10; Chromedriver (Launches 8)]);
      [apply reachable_start | compute_done | vm_compute; reflexivity].
  - compute_done.
  - vm_compute. reflexivity.
Defined.

(** [get_driver] with a valid driver at the head of the queue. *)
Lemma get_driver_head_valid timeout w i rest :
  driver_pool (pool w) = i :: rest →
  _is_driver_valid (Some (idle_driver i)) w = Ret true →
  0 < timeout →
  get_driver timeout w =
    Some (Ret (idle_driver i),
          set_active_drivers
            (<[addr (idle_driver i) :=
                 mkActive (idle_driver i) (idle_created_at i) (now (env w))]>
               (active_drivers (pool w)))
            (set_driver_pool rest w)).
Proof.
  intros Hq Hv Hpos. unfold get_driver, get_driver_fuel.
  rewrite Hq. cbn [length Nat.add].
  rewrite loop_window_open by (by apply get_driver_window).
  by rewrite (body_idle_valid_eq w i rest).
Qed.

(** X5.  Release and lease again: a leased driver that is within its age
    and passes the probe, released into an empty queue, is what the next
    [get_driver] returns; nothing is launched or quit, the count is
    unchanged, and the world is the one before the release except that
    the entry's [last_used] is now: [created_at] survives the round
    trip. *)
Theorem release_then_acquire (timeout : Z) (w : World) (d : Driver) (info : ActiveInfo) :
  driver_pool (pool w) = [] →
  active_drivers (pool w) !! addr d = Some info →
  now (env w) - created_at info ≤ max_driver_age (pool w) * 1000 →
  _is_driver_valid (Some d) w = Ret true →
  0 < timeout →
  get_driver timeout (release_driver (Some d) w).2 =
    Some (Ret d,
          set_active_drivers
            (<[addr d := mkActive d (created_at info) (now (env w))]>
               (active_drivers (pool w))) w).
Proof.
  intros Hq Hin Hage Hv Hpos.
  rewrite (release_tracked_young d w info) by done. cbv zeta. rewrite Hv.
  rewrite (get_driver_head_valid timeout _ (mkIdle d (created_at info)) []);
    [| by cbn; rewrite Hq
     | by rewrite <- Hv; apply validity_only_reads_sessions
     | done].
  cbn. rewrite insert_delete_eq. do 2 f_equal.
  destruct w as [[] ?]. cbn in *. by subst.
Qed.

(** X5, witness: [d0] released and leased again five seconds after its
    creation. *)
Lemma release_then_acquire_witness :
  get_driver 10 (release_driver (Some d0) (time_sleep 5000 leased_world)).2 =
    Some (Ret d0,
          set_active_drivers
            (<[addr d0 := mkActive d0 0 5000]>
               (active_drivers (pool (time_sleep 5000 leased_world))))
            (time_sleep 5000 leased_world)).
Proof.
  apply (release_then_acquire 10 (time_sleep 5000 leased_world) d0 (mkActive d0 0 0));
    [reflexivity | reflexivity | cbn; lia | reflexivity | lia].
Defined.

(** X6.  Released twice: the first release of a healthy driver queues it,
    the second finds its id unknown and quits it, and the driver stays in
    the queue; the next [get_driver] probes it and, if the probe still
    answers, hands out a driver on which [quit] has been called. *)
Theorem double_release (timeout : Z) (w : World) (d : Driver) (info : ActiveInfo) :
  active_drivers (pool w) !! addr d = Some info →
  now (env w) - created_at info ≤ max_driver_age (pool w) * 1000 →
  _is_driver_valid (Some d) w = Ret true →
  let w2 := (release_driver (Some d) (release_driver (Some d) w).2).2 in
  driver_pool (pool w2) = driver_pool (pool w) ++ [mkIdle d (created_at info)] ∧
  quit_calls (env w2) = quit_calls (env w) ++ [d] ∧
  pool_size (pool w2) = pool_size (pool w) ∧
  (driver_pool (pool w) = [] → 0 < timeout →
   ∃ w3, get_driver timeout w2 = Some (Ret d, w3) ∧ d ∈ quit_calls (env w3)).
Proof.
  intros Hin Hage Hv w2. subst w2.
  rewrite (release_tracked_young d w info) by done. cbv zeta. rewrite Hv.
  rewrite release_untracked by (cbn; apply lookup_delete_eq). cbn -[get_driver].
  split_and!; try done.
  intros Hq Hpos.
  rewrite (get_driver_head_valid timeout _ (mkIdle d (created_at info)) []);
    [| by cbn; rewrite Hq
     | by rewrite <- Hv; apply validity_only_reads_sessions
     | done].
  eexists. split; [done|]. cbn. apply elem_of_app. right. by left.
Qed.

(** X6, witness: [d0] released twice. *)
Lemma double_release_witness :
  ∃ w3,
    get_driver 10
      (release_driver (Some d0) (release_driver (Some d0) leased_world).2).2
    = Some (Ret d0, w3) ∧ d0 ∈ quit_calls (env w3).
Proof.
  destruct (double_release 10 leased_world d0 (mkActive d0 0 0))
    as (_ & _ & _ & H); [reflexivity | cbn; lia | reflexivity |].
  apply H; [reflexivity | lia].
Defined.

(** ** Capacity, whatever the outside world does *)











(** ** Drivers that have been quit *)

(** X8.  Where callers release only what they hold and sessions fail only
    in the ways the validator catches, [get_driver] never hands out a
    driver on which [quit] has been called: what it returns is a driver
    the pool launched and has not quit. *)
Theorem quit_driver_not_handed_out
  (m age t timeout : Z) (c : launch) (w w' : World) (d : Driver) :
  reachable disciplined (fresh m age t c) w →
  feasible w (Acquire timeout) →
  get_driver timeout w = Some (Ret d, w') →
  d ∈ launched (env w') ∧ d ∉ quit_calls (env w').
Proof.
  intros Hr Hf Hg.
  assert (Hr' : reachable disciplined (fresh m age t c) w').
  { eapply (reachable_step disciplined _ w (Acquire timeout)); [done|by split|].
    cbn. by rewrite Hg. }
  destruct (ledger_reachable m age t c w' Hr') as [_ [Hbal _ Hnd _]].
  destruct (get_driver_registers timeout w w' d Hg) as (info & Hin & Hd & _).
  assert (Hl : d ∈ leased w').
  { unfold leased, drivers_of. rewrite <- Hd.
    apply list_elem_of_fmap_2. apply (list_elem_of_fmap_2 snd _ (addr d, info)).
    by apply elem_of_map_to_list. }
  split.
  - rewrite Hbal. apply elem_of_app. right. apply elem_of_app. by left.
  - rewrite Hbal in Hnd.
    apply NoDup_app in Hnd as (_ & _ & (_ & Hdis & _)%NoDup_app). by apply Hdis.
Qed.

(** X8, witness: the driver handed out after [d0] was retired. *)
Lemma quit_driver_not_handed_out_witness :
  ∃ w d w',
    run [Acquire 10; Session d0 (Some NoSuchWindowException); Release (Some d0)] w0
    = Some w ∧
    get_driver 10 w = Some (Ret d, w') ∧
    d ∈ launched (env w') ∧ d ∉ quit_calls (env w').
Proof.
  do 3 eexists. split; [vm_compute; reflexivity|].
  split; [vm_compute; reflexivity|].
  eapply (quit_driver_not_handed_out 1 1800 0 10 (Launches 7)).
  - eapply (reachable_run disciplined
              [Acquire 10; Session d0 (Some NoSuchWindowException);
               Release (Some d0)]);
      [apply reachable_start | compute_done | vm_compute; reflexivity].
  - compute_done.
  - vm_compute. reflexivity.
Defined.

(** ** How long get_driver takes *)






(** * The arguments of the browser *)

Lemma add_user_options_app (l : list (string * option_value)) : ∀ acc,
  foldl add_user_option acc l = acc ++ concat (option_argument <$> l).
Proof.
  induction l as [|[k v] l IH]; intros acc; cbn.
  - by rewrite app_nil_r.
  - rewrite IH. unfold option_argument, add_user_option, add_argument. cbn.
    destruct v; cbn; by rewrite <- ?app_assoc.
Qed.

Lemma option_arguments_count (l : list (string * option_value)) :
  length (concat (option_argument <$> l)) =
  length (filter (λ item, item.2 ≠ IsNone) l).
Proof.
  induction l as [|[k v] l IH]; [done|].
  rewrite filter_cons. cbn [fmap list_fmap concat]. rewrite length_app, IH.
  destruct v; cbn; case_decide; done.
Qed.

(** X10.  The arguments of every browser start with the four fixed
    arguments, in their order; [browser_options] can only add to them:
    one argument for each option whose value is not [None], in the order
    of the dict, [--name] for [True] and [--name=value] otherwise. *)
Theorem chrome_arguments_layout (browser_options : list (string * option_value)) :
  ∃ tail,
    chrome_arguments browser_options =
      ["--no-sandbox"; "--disable-dev-shm-usage"; "--disable-gpu";
       "--window-size=1920,1080"]%string
      ++ concat (option_argument <$> browser_options) ++ tail ∧
    (tail = [] ∨ tail = ["--headless=new"%string]) ∧
    length (concat (option_argument <$> browser_options)) =
      length (filter (λ item, item.2 ≠ IsNone) browser_options) ∧
    ∀ name,
      option_argument (name, IsTrue) = ["--" +:+ name] ∧
      option_argument (name, IsNone) = [] ∧
      ∀ value, option_argument (name, Other value)
               = ["--" +:+ name +:+ "=" +:+ value].
Proof.
  unfold chrome_arguments. cbv zeta. rewrite add_user_options_app.
  case_decide.
  - exists []. rewrite app_nil_r.
    split_and!; [done | by left | apply option_arguments_count | done].
  - exists ["--headless=new"%string]. unfold add_argument.
    rewrite <- app_assoc.
    split_and!; [done | by right | apply option_arguments_count | done].
Qed.

(** X11.  [--headless=new] is added, as the last argument, exactly when
    [browser_options] has no key [headless].  Giving [headless] the value
    [None] therefore takes the default away and puts nothing in its
    place, while any other value but [True], [False] included, is passed
    on as [--headless=value]. *)
Theorem headless_default (browser_options l1 l2 : list (string * option_value))
  (value : string) :
  ("headless"%string ∉ browser_options.*1 →
     last (chrome_arguments browser_options) = Some "--headless=new"%string) ∧
  ("headless"%string ∈ browser_options.*1 →
     chrome_arguments browser_options =
       ["--no-sandbox"; "--disable-dev-shm-usage"; "--disable-gpu";
        "--window-size=1920,1080"]%string
       ++ concat (option_argument <$> browser_options)) ∧
  ("headless"%string ∉ (l1 ++ l2).*1 →
     chrome_arguments (l1 ++ l2) =
       chrome_arguments (l1 ++ ("headless"%string, IsNone) :: l2)
       ++ ["--headless=new"%string]) ∧
  ("--headless=" +:+ value)%string
    ∈ chrome_arguments (l1 ++ ("headless"%string, Other value) :: l2).
Proof.
  assert (Hyes : ∀ l : list (string * option_value),
            "headless"%string ∈ l.*1 →
            chrome_arguments l =
              ["--no-sandbox"; "--disable-dev-shm-usage"; "--disable-gpu";
               "--window-size=1920,1080"]%string
              ++ concat (option_argument <$> l)).
  { intros l Hin. unfold chrome_arguments. cbv zeta.
    rewrite add_user_options_app. by rewrite decide_True. }
  assert (Hno : ∀ l : list (string * option_value),
            "headless"%string ∉ l.*1 →
            chrome_arguments l =
              (["--no-sandbox"; "--disable-dev-shm-usage"; "--disable-gpu";
                "--window-size=1920,1080"]%string
               ++ concat (option_argument <$> l)) ++ ["--headless=new"%string]).
  { intros l Hout. unfold chrome_arguments. cbv zeta.
    rewrite add_user_options_app. by rewrite decide_False. }
  assert (Hkey : ∀ (a b : list (string * option_value)) v,
            "headless"%string ∈ (a ++ ("headless"%string, v) :: b).*1).
  { intros a b v. rewrite fmap_app. apply elem_of_app. right. by left. }
  split_and!.
  - intros Hout. rewrite (Hno _ Hout). apply last_snoc.
  - apply Hyes.
  - intros Hout. rewrite (Hno _ Hout), (Hyes _ (Hkey l1 l2 IsNone)).
    by rewrite !fmap_app, !concat_app.
  - rewrite (Hyes _ (Hkey l1 l2 (Other value))).
    rewrite fmap_app, concat_app, fmap_cons, concat_cons, !elem_of_app.
    right. right. left. cbn. by left.
Qed.

(** X11, witness: a pool asked for incognito windows only, and the pool of
    [initialize_driver_pool], whose options name [headless]. *)
Lemma headless_default_witness :
  ("headless"%string ∉ [("incognito"%string, IsTrue)].*1) ∧
  last (chrome_arguments [("incognito"%string, IsTrue)])
    = Some "--headless=new"%string ∧
  ("headless"%string ∈ initialize_driver_pool_options.*1) ∧
  chrome_arguments initialize_driver_pool_options =
    ["--no-sandbox"; "--disable-dev-shm-usage"; "--disable-gpu";
     "--window-size=1920,1080"]%string
    ++ concat (option_argument <$> initialize_driver_pool_options).
Proof.
  assert (Hout : "headless"%string ∉ [("incognito"%string, IsTrue)].*1)
    by (vm_compute; set_solver).
  assert (Hin : "headless"%string ∈ initialize_driver_pool_options.*1)
    by (vm_compute; set_solver).
  split; [exact Hout|].
  split; [exact (proj1 (headless_default [("incognito"%string, IsTrue)] [] []
                          EmptyString) Hout)|].
  split; [exact Hin|].
  exact (proj1 (proj2 (headless_default initialize_driver_pool_options [] []
                         EmptyString)) Hin).
Defined.

(** The pool of [initialize_driver_pool] starts its browsers with these
    arguments: its [headless] entry stands in for the default. *)
Example initialize_driver_pool_arguments :
  chrome_arguments initialize_driver_pool_options =
    ["--no-sandbox"; "--disable-dev-shm-usage"; "--disable-gpu";
     "--window-size=1920,1080"; "--disable-infobars"; "--disable-extensions";
     "--disable-popup-blocking"; "--incognito"; "--headless=new"]%string.
Proof. vm_compute. reflexivity. Qed.

(** * The scrapers *)

(** ** Cutting a string at its separators *)

Lemma string_length_app (a b : string) :
  String.length (a +:+ b) = (String.length a + String.length b)%nat.
Proof. induction a as [|c a IH]; simpl; [done|]. by f_equal. Qed.

Lemma str_find_cons sep c s :
  str_find sep (String c s) =
  match strip_prefix sep (String c s) with
  | Some rest => Some (EmptyString, rest)
  | None =>
      match str_find sep s with
      | Some (before, after) => Some (String c before, after)
      | None => None
      end
  end.
Proof. done. Qed.

(** A field that has no [", "] inside, followed by [", "]: the leftmost
    [", "] is the one after the field. *)
Lemma str_find_boundary (f rest : string) :
  str_find ", " f = None →
  str_find ", " (f +:+ ", " +:+ rest) = Some (f, rest).
Proof.
  induction f as [|c f IH]; intros Hnone.
  - reflexivity.
  - rewrite str_find_cons in Hnone.
    destruct (strip_prefix ", " (String c f)) as [?|] eqn:Hp; [done|].
    destruct (str_find ", " f) as [[? ?]|] eqn:Hf; [done|].
    change (String c f +:+ ", " +:+ rest) with (String c (f +:+ ", " +:+ rest)).
    rewrite str_find_cons, IH by done.
    replace (strip_prefix ", " (String c (f +:+ ", " +:+ rest)))
      with (@None string); [done|].
    symmetry. cbn in *. case_decide as Hc; [|done].
    destruct f as [|b f]; simpl in *; [done|]. clear Hf IH. by case_decide.
Qed.

Lemma split_fuel_join fields : ∀ fuel,
  fields ≠ [] →
  Forall (λ f, str_find ", " f = None) fields →
  (String.length (join ", " fields) ≤ fuel)%nat →
  split_fuel fuel ", " (join ", " fields) = fields.
Proof.
  induction fields as [|f fields IH]; intros fuel Hne Hall Hfuel; [done|].
  apply Forall_cons in Hall as [Hf Hall].
  destruct fields as [|g fields].
  - cbn. destruct fuel; [done|]. cbn. by rewrite Hf.
  - change (join ", " (f :: g :: fields))
      with (f +:+ ", " +:+ join ", " (g :: fields)) in *.
    rewrite !string_length_app in Hfuel. cbn [String.length] in Hfuel.
    destruct fuel as [|fuel]; [lia|].
    cbn [split_fuel]. rewrite str_find_boundary by done.
    f_equal. apply IH; [done|done|lia].
Qed.

(** Joining fields that have no [", "] inside and cutting the result
    gives the fields back. *)
Lemma split_join fields :
  fields ≠ [] →
  Forall (λ f, str_find ", " f = None) fields →
  split ", " (join ", " fields) = fields.
Proof. intros. by apply split_fuel_join. Qed.

Lemma split_fuel_nonempty fuel sep s : split_fuel fuel sep s ≠ [].
Proof. destruct fuel; cbn; [done|]. by destruct (str_find sep s) as [[? ?]|]. Qed.

(** X12.  What [scrape_vinted] makes of the [title] attribute of a card:
    when the attribute is a row of fields joined by [", "], the title is
    the first field, and the price is the last field but one if there
    are three fields or more and [No price] if there are fewer.  Whatever
    the attribute, the title is cut out of it: the fallback [No title]
    is never taken. *)
Theorem vinted_title_price_fields (fields : list string) (title_full : string) :
  (fields ≠ [] →
   Forall (λ f, str_find ", " f = None) fields →
   vinted_title_price (join ", " fields) =
     (default EmptyString (head fields),
      if (2 <? length fields)%nat
      then default EmptyString (fields !! (length fields - 2)%nat)
      else "No price"%string)) ∧
  (vinted_title_price title_full).1 = default EmptyString (head (split ", " title_full)) ∧
  split ", " title_full ≠ [].
Proof.
  split; [|split].
  - intros Hne Hall. unfold vinted_title_price. cbv zeta.
    rewrite (split_join fields Hne Hall).
    destruct fields as [|f fields]; [done|]. done.
  - unfold vinted_title_price. cbv zeta.
    pose proof (split_fuel_nonempty (String.length title_full) ", " title_full) as Hne.
    fold (split ", " title_full) in Hne.
    by destruct (split ", " title_full).
  - apply split_fuel_nonempty.
Qed.

(** X12, witness: the title attribute of a card that names brand, price
    and size. *)
Lemma vinted_title_price_fields_witness :
  vinted_title_price "Shirt, brand: Acme, 5.00, size M"
    = ("Shirt"%string, "5.00"%string) ∧
  vinted_title_price "Shirt, 5.00" = ("Shirt"%string, "No price"%string).
Proof.
  split.
  - refine (proj1 (vinted_title_price_fields
                     ["Shirt"; "brand: Acme"; "5.00"; "size M"]%string
                     EmptyString) _ _); [done|].
    repeat (apply Forall_cons_2; [reflexivity|]). apply Forall_nil_2.
  - refine (proj1 (vinted_title_price_fields ["Shirt"; "5.00"]%string
                     EmptyString) _ _); [done|].
    repeat (apply Forall_cons_2; [reflexivity|]). apply Forall_nil_2.
Defined.

(** ** The scrapers' pool *)

Lemma get_driver_default_pool (e : Env) :
  get_driver 10 (mkWorld default_pool e) =
  Some (match chrome e with
        | Launches a =>
            let d := mkDriver a (length (launched e)) in
            (Ret d,
             mkWorld (mkPool [] {[ a := mkActive d (now e) (now e) ]} 5 1800 1 true)
                     (mkEnv (now e) (current_url e) (chrome e)
                            (launched e ++ [d]) (quit_calls e) (sweep_error e)))
        | LaunchFails x => (Raise (Fault x), mkWorld default_pool e)
        end).
Proof.
  unfold get_driver, get_driver_fuel. cbn [default_pool init pool driver_pool length env].
  replace (0 + Z.to_nat (10 * 1000) + 1)%nat with (S (Z.to_nat 10000)) by lia.
  cbn [get_driver_loop env].
  replace (now e - now e <? 10 * 1000) with true by (symmetry; apply Z.ltb_lt; lia).
  unfold get_driver_body, _create_new_driver. cbn.
  destruct (chrome e) eqn:Hc; cbn; [|done].
  unfold set_active_drivers, set_pool_size, set_env. cbn.
  by rewrite insert_empty.
Qed.

(** ** What [scrape_ebay] returns *)

Lemma last_n_length {A} (n : nat) (l : list A) :
  length (last_n n l) = (length l `min` n)%nat.
Proof. unfold last_n. rewrite length_drop. lia. Qed.

Lemma last_n_suffix {A} (n : nat) (l : list A) : last_n n l `suffix_of` l.
Proof. apply suffix_drop. Qed.

Lemma last_n_all {A} (n : nat) (l : list A) :
  (length l ≤ n)%nat → last_n n l = l.
Proof.
  intros Hl. unfold last_n. by replace (length l - n)%nat with 0%nat by lia.
Qed.

Lemma omap_ebay_item_found (cards : list EbayCard) :
  Forall (λ c, c ≠ Missing) cards →
  length (omap ebay_item cards) = length cards.
Proof.
  induction 1 as [|c cards Hc _ IH]; [done|].
  destruct c as [[[[t p] i] u]|]; [|done]. cbn. by rewrite IH.
Qed.

Lemma omap_ebay_item_source (cards : list EbayCard) :
  Forall (λ i, source i = "ebay"%string) (omap ebay_item cards).
Proof.
  induction cards as [|c cards IH]; [by constructor|].
  destruct c as [[[[t p] i] u]|]; cbn; [by constructor|done].
Qed.

Lemma omap_drop_found (k : nat) (cards : list EbayCard) :
  Forall (λ c, c ≠ Missing) cards →
  drop k (omap ebay_item cards) = omap ebay_item (drop k cards).
Proof.
  intros H. revert k. induction H as [|c cards Hc _ IH]; intros k.
  - by destruct k.
  - destruct k as [|k]; [reflexivity|].
    destruct c as [[[[t p] i] u]|]; [|done]. cbn. apply IH.
Qed.

Lemma scrape_ebay_items_inv visit e items w' :
  scrape_ebay visit e = Some (Ret items, w') →
  (is_Some (grid_wait visit) ∧ items = []) ∨
  (grid_wait visit = None ∧
   items = last_n 10 (omap ebay_item (take 12 (product_cards visit)))).
Proof.
  unfold scrape_ebay. cbv zeta. rewrite get_driver_default_pool.
  destruct (chrome e); [|done]. cbv zeta.
  destruct (page_load visit); [done|].
  unfold driver_quit.
  destruct (grid_wait visit) as [f|].
  - destruct (quit_raises visit); [done|]. intros [= <- _]. left. eauto.
  - destruct (find_elements visit); [done|].
    destruct (quit_raises visit); [done|]. intros [= <- _]. by right.
Qed.

(** X13.  What [scrape_ebay] returns when it returns: no more than ten
    listings, each with the source [ebay], and they are the last of those
    read off the first twelve products of the page, in the order of the
    page.  When the listings did not show up in time the list is empty.
    Otherwise every listing read is returned when there are no more than
    ten of them, and when the page has twelve products or more and the
    first twelve can all be read, the first two are left out and the
    third to the twelfth are returned. *)
Theorem scrape_ebay_items visit e items w' :
  scrape_ebay visit e = Some (Ret items, w') →
  (length items ≤ 10)%nat ∧
  Forall (λ i, source i = "ebay"%string) items ∧
  items `suffix_of` omap ebay_item (take 12 (product_cards visit)) ∧
  (is_Some (grid_wait visit) → items = []) ∧
  (grid_wait visit = None →
   ((length (omap ebay_item (take 12 (product_cards visit))) ≤ 10)%nat →
    items = omap ebay_item (take 12 (product_cards visit))) ∧
   ((12 ≤ length (product_cards visit))%nat →
    Forall (λ c, c ≠ Missing) (take 12 (product_cards visit)) →
    items = omap ebay_item (take 10 (drop 2 (product_cards visit))))).
Proof.
  intros [[Hg ->]|[Hg ->]]%scrape_ebay_items_inv.
  - split_and!; try done.
    + cbn. lia.
    + apply suffix_nil.
    + intros Hn. rewrite Hn in Hg. by destruct Hg.
  - split_and!.
    + rewrite last_n_length. lia.
    + apply Forall_drop, omap_ebay_item_source.
    + apply last_n_suffix.
    + intros Hs. rewrite Hg in Hs. by destruct Hs.
    + intros _. split; [apply last_n_all|].
      intros Hl Hf. unfold last_n.
      rewrite omap_ebay_item_found, length_take by done.
      replace (12 `min` length (product_cards visit) - 10)%nat with 2%nat by lia.
      rewrite omap_drop_found by done. f_equal.
      by rewrite skipn_firstn_comm.
Qed.

(** X13, witness: of thirteen readable products the third to the twelfth
    are returned. *)
Lemma scrape_ebay_items_witness :
  ∃ items w',
    scrape_ebay ebay_page (fresh_env 0 (Launches 7)) = Some (Ret items, w') ∧
    title <$> items = ["c"; "d"; "e"; "f"; "g"; "h"; "i"; "j"; "k"; "l"]%string.
Proof.
  eexists _, _. split; [vm_compute; reflexivity|].
  edestruct (scrape_ebay_items ebay_page (fresh_env 0 (Launches 7)))
    as (_ & _ & _ & _ & Hx); [vm_compute; reflexivity|].
  destruct (Hx eq_refl) as [_ Hy].
  rewrite Hy; [reflexivity | vm_compute; lia |].
  cbn. repeat (apply Forall_cons_2; [discriminate|]). apply Forall_nil_2.
Defined.

(** ** The scrapers and their browsers *)

Lemma shutdown_single_lease (p : WebDriverPool) (e : Env) a info :
  driver_pool p = [] →
  active_drivers p = {[ a := info ]} →
  quit_calls (env (shutdown (mkWorld p e))) = quit_calls e ++ [driver info].
Proof.
  destruct p as [q m md ma n r]. cbn. intros -> ->.
  unfold shutdown. cbn. by rewrite map_to_list_singleton.
Qed.

Lemma omap_vinted_item_source (cards : list VintedCard) :
  Forall (λ i, source i = "vinted"%string) (omap vinted_item cards).
Proof.
  induction cards as [|c cards IH]; [by constructor|].
  change (omap vinted_item (c :: cards)) with
    (match vinted_item c with
     | Some y => y :: omap vinted_item cards
     | None => omap vinted_item cards
     end).
  destruct (vinted_item c) as [i|] eqn:Hi; [|done].
  constructor; [|done].
  unfold vinted_item in Hi.
  destruct (overlay_link c) as [[[t|] h]|]; [| |done];
    (destruct (card_image c); [|done]); [|done].
  by injection Hi as <-.
Qed.

Lemma omap_vinted_item_length (cards : list VintedCard) :
  (length (omap vinted_item cards) ≤ length cards)%nat ∧
  (Forall (λ c, is_Some (vinted_item c)) cards →
   length (omap vinted_item cards) = length cards).
Proof.
  induction cards as [|c cards [IH1 IH2]]; [done|].
  change (omap vinted_item (c :: cards)) with
    (match vinted_item c with
     | Some y => y :: omap vinted_item cards
     | None => omap vinted_item cards
     end).
  split.
  - destruct (vinted_item c); cbn; lia.
  - intros [[i Hi] Hf]%Forall_cons. rewrite Hi. cbn. by rewrite IH2.
Qed.

(** X14.  [scrape_vinted] with a browser that starts: the call never
    waits and never ends in the pool's [TimeoutError]; the driver it took
    is quit exactly once, whatever the page did, and it is never given
    back: the scraper's pool still has it in [active_drivers] and counts
    it, so that the [shutdown] registered for the exit of the program
    quits the same driver a second time.  An exception out of the
    [driver.quit()] of the [finally] is what the call raises, and with no
    exception at all the call returns what the cards of the page yield. *)
Theorem scrape_vinted_keeps_lease (visit : Visit VintedCard) (e : Env) (a : Z) :
  chrome e = Launches a →
  ∃ r w',
    scrape_vinted visit e = Some (r, w') ∧
    r ≠ Raise TimeoutError ∧
    now (env w') = now e ∧
    launched (env w') = launched e ++ [mkDriver a (length (launched e))] ∧
    quit_calls (env w') = quit_calls e ++ [mkDriver a (length (launched e))] ∧
    active_drivers (pool w') =
      {[ a := mkActive (mkDriver a (length (launched e))) (now e) (now e) ]} ∧
    driver_pool (pool w') = [] ∧
    pool_size (pool w') = 1 ∧
    quit_calls (env (shutdown w')) =
      quit_calls e ++ [mkDriver a (length (launched e));
                       mkDriver a (length (launched e))] ∧
    (∀ f, quit_raises visit = Some f → r = Raise (Fault f)) ∧
    (quit_raises visit = None → page_load visit = None →
     grid_wait visit = None → find_elements visit = None →
     r = Ret (omap vinted_item (product_cards visit))).
Proof.
  intros Hc. unfold scrape_vinted. cbv zeta.
  rewrite get_driver_default_pool, Hc. cbv zeta.
  unfold driver_quit, _quit_driver, set_env. cbn.
  set (d := mkDriver a (length (launched e))).
  assert (Hs : ∀ e', quit_calls e' = quit_calls e ++ [d] →
    quit_calls (env (shutdown (mkWorld
      (mkPool [] {[ a := mkActive d (now e) (now e) ]} 5 1800 1 true) e'))) =
    quit_calls e ++ [d; d]).
  { intros e' He'. erewrite shutdown_single_lease; [|done..].
    rewrite He'. cbn. by rewrite <-app_assoc. }
  destruct (quit_raises visit) as [fq|].
  - eexists _, _. split; [done|]. cbn. split_and!; try done.
    + by apply Hs.
    + by intros f [= ->].
  - destruct (page_load visit) as [f1|];
      [|destruct (grid_wait visit) as [f2|];
        [|destruct (find_elements visit) as [f3|]]];
      (eexists _, _; split; [done|]; cbn; split_and!; try done; by apply Hs).
Qed.

(** X14, witness: the page does not load; [d0] is quit by the scraper and
    again by [shutdown]. *)
Lemma scrape_vinted_keeps_lease_witness :
  chrome (fresh_env 0 (Launches 7)) = Launches 7 ∧
  ∃ r w',
    scrape_vinted site_down (fresh_env 0 (Launches 7)) = Some (r, w') ∧
    quit_calls (env w') = [d0] ∧
    quit_calls (env (shutdown w')) = [d0; d0].
Proof.
  split; [reflexivity|].
  destruct (scrape_vinted_keeps_lease site_down (fresh_env 0 (Launches 7)) 7 eq_refl)
    as (r & w' & H & _ & _ & _ & Hq & _ & _ & _ & Hs & _).
  exists r, w'. split; [exact H|]. split; [exact Hq | exact Hs].
Defined.

(** X15.  [scrape_ebay] has no [finally]: with a browser that starts, the
    driver is quit (once) when the listings do not show up in time and
    when the page was read to the end, and it is not quit at all when
    [driver.get] or [find_elements] raises, the exception leaving the
    call.  In every case the driver stays leased in the scraper's pool. *)
Theorem scrape_ebay_quit_paths (visit : Visit EbayCard) (e : Env) (a : Z) :
  chrome e = Launches a →
  ∃ r w',
    scrape_ebay visit e = Some (r, w') ∧
    r ≠ Raise TimeoutError ∧
    launched (env w') = launched e ++ [mkDriver a (length (launched e))] ∧
    active_drivers (pool w') =
      {[ a := mkActive (mkDriver a (length (launched e))) (now e) (now e) ]} ∧
    pool_size (pool w') = 1 ∧
    quit_calls (env w') =
      quit_calls e ++
      match page_load visit, grid_wait visit, find_elements visit with
      | None, Some _, _ | None, None, None => [mkDriver a (length (launched e))]
      | Some _, _, _ | None, None, Some _ => []
      end ∧
    (∀ f, page_load visit = Some f → r = Raise (Fault f)) ∧
    (∀ f, page_load visit = None → grid_wait visit = None →
          find_elements visit = Some f → r = Raise (Fault f)) ∧
    (page_load visit = None → is_Some (grid_wait visit) →
     quit_raises visit = None → r = Ret []).
Proof.
  intros Hc. unfold scrape_ebay. cbv zeta.
  rewrite get_driver_default_pool, Hc. cbv zeta.
  unfold driver_quit, _quit_driver, set_env. cbn.
  destruct (page_load visit) as [f1|].
  { eexists _, _. split; [done|]. cbn. rewrite app_nil_r.
    split_and!; try done. by intros f [= ->]. }
  destruct (grid_wait visit) as [f2|].
  { destruct (quit_raises visit) as [fq|];
      (eexists _, _; split; [done|]; cbn; split_and!; try done;
       by intros _ [? [=]]). }
  destruct (find_elements visit) as [f3|].
  { eexists _, _. split; [done|]. cbn. rewrite app_nil_r.
    split_and!; try done. by intros f _ _ [= ->]. }
  destruct (quit_raises visit) as [fq|];
    (eexists _, _; split; [done|]; cbn; split_and!; try done;
     by intros _ [? [=]]).
Qed.

(** X15, witness: the page does not load and [d0] is left running. *)
Lemma scrape_ebay_quit_paths_witness :
  chrome (fresh_env 0 (Launches 7)) = Launches 7 ∧
  ∃ r w',
    scrape_ebay site_down (fresh_env 0 (Launches 7)) = Some (r, w') ∧
    launched (env w') = [d0] ∧
    quit_calls (env w') = [].
Proof.
  split; [reflexivity|].
  destruct (scrape_ebay_quit_paths site_down (fresh_env 0 (Launches 7)) 7 eq_refl)
    as (r & w' & H & _ & Hl & _ & _ & Hq & _).
  exists r, w'. split; [exact H|]. split; [exact Hl | exact Hq].
Defined.

(** X16.  When the browser cannot be started, both scrapers raise what
    [webdriver.Chrome] raised: nothing is quit and the pool they made is
    as [__init__] left it. *)
Theorem scrapers_launch_failure (visit_v : Visit VintedCard)
    (visit_e : Visit EbayCard) (e : Env) (x : fault) :
  chrome e = LaunchFails x →
  scrape_vinted visit_v e = Some (Raise (Fault x), mkWorld default_pool e) ∧
  scrape_ebay visit_e e = Some (Raise (Fault x), mkWorld default_pool e).
Proof.
  intros Hc. unfold scrape_vinted, scrape_ebay. cbv zeta.
  by rewrite get_driver_default_pool, Hc.
Qed.

(** X16, witness: a launcher that raises [WebDriverException]. *)
Lemma scrapers_launch_failure_witness :
  chrome (fresh_env 0 (LaunchFails WebDriverException)) =
    LaunchFails WebDriverException ∧
  scrape_vinted vinted_page (fresh_env 0 (LaunchFails WebDriverException)) =
    Some (Raise (Fault WebDriverException),
          mkWorld default_pool (fresh_env 0 (LaunchFails WebDriverException))) ∧
  scrape_ebay ebay_page (fresh_env 0 (LaunchFails WebDriverException)) =
    Some (Raise (Fault WebDriverException),
          mkWorld default_pool (fresh_env 0 (LaunchFails WebDriverException))).
Proof.
  split; [reflexivity|].
  apply (scrapers_launch_failure vinted_page ebay_page
           (fresh_env 0 (LaunchFails WebDriverException)) WebDriverException).
  reflexivity.
Defined.

(** X17.  When [scrape_vinted] returns a list, nothing raised on the way
    (a grid that does not show up makes it raise, where [scrape_ebay]
    answers the empty list), and the list holds one entry for every card
    that could be read, in the order of the page, each with the source
    [vinted]: no more entries than cards, and no cut at ten, every card
    gives its entry when all can be read. *)
Theorem scrape_vinted_items (visit : Visit VintedCard) (e : Env) items w' :
  scrape_vinted visit e = Some (Ret items, w') →
  page_load visit = None ∧ grid_wait visit = None ∧
  find_elements visit = None ∧ quit_raises visit = None ∧
  items = omap vinted_item (product_cards visit) ∧
  Forall (λ i, source i = "vinted"%string) items ∧
  (length items ≤ length (product_cards visit))%nat ∧
  (Forall (λ c, is_Some (vinted_item c)) (product_cards visit) →
   length items = length (product_cards visit)).
Proof.
  unfold scrape_vinted. cbv zeta. rewrite get_driver_default_pool.
  destruct (chrome e); [|done]. cbv zeta. unfold driver_quit.
  destruct (quit_raises visit); [done|].
  destruct (page_load visit); [done|].
  destruct (grid_wait visit); [done|].
  destruct (find_elements visit); [done|].
  intros [= <- _]. split_and!; try done.
  - apply omap_vinted_item_source.
  - apply omap_vinted_item_length.
  - apply omap_vinted_item_length.
Qed.

(** X17, witness: a grid of two cards, one of them without its link. *)
Lemma scrape_vinted_items_witness :
  ∃ items w',
    scrape_vinted vinted_page (fresh_env 0 (Launches 7)) = Some (Ret items, w') ∧
    items = omap vinted_item (product_cards vinted_page) ∧
    (length items ≤ 2)%nat.
Proof.
  eexists _, _. split; [vm_compute; reflexivity|].
  edestruct (scrape_vinted_items vinted_page (fresh_env 0 (Launches 7)))
    as (_ & _ & _ & _ & Hi & _ & Hl & _); [vm_compute; reflexivity|].
  split; [exact Hi | exact Hl].
Defined.
